(** * Local-evaluation client: streaming sync, assignment events, evaluation

    A shallow embedding of
      - pkg/experiment/local/flag_config_stream_api.go
      - pkg/experiment/local/assignment_service.go
      - pkg/experiment/local/client.go
    Go maps are [gmap]s, Go errors are strings, Go's [interface{}] is the
    tagged type [Value], and the goroutines of the streaming client are an
    interleaving of lock-protected atomic steps over an explicit [World]. *)

From stdpp Require Import gmap strings list fin_maps pretty.
From Stdlib Require Import ZArith.

Set Warnings "-register-all,-clear-no-such-hyp".

(** ** Shared data model *)

(** Go's [error] values: only the message matters here. *)
Definition error := string.

(** Addresses of Go map objects, used where aliasing matters. *)
Definition loc := positive.

(** Go's [interface{}] as it comes out of JSON decoding or the engine. *)
Inductive Value :=
| VNil
| VBool (b : bool)
| VInt (z : Z)
| VString (s : string)
| VSlice (l : list Value)
| VMap (m : list (string * Value)).

(** Modelled from the spec: the declaration of [evaluation.Flag] is not among
    the sources.  The fields are those of the spec's FlagConfig (the opaque
    targeting specification apart): the key, the kind, the referenced cohort
    ids by the group type they apply to, the declared dependencies and the
    metadata map (a reference to a Go map object, [None] for a nil map). *)
Record Flag := {
  Key : string;
  FlagType : string;
  CohortIDs : gmap string (gset string);
  Dependencies : list string;
  Metadata : option loc
}.

(** ** Results of steps that may panic *)

(** A Go call either returns, panics (the process dies with [msg]), or, for
    a scheduler event, is not enabled in the current state. *)
Inductive Res (A : Type) :=
| Done (a : A)
| Panic (msg : string)
| Disabled.
Arguments Done {A} a.
Arguments Panic {A} msg.
Arguments Disabled {A}.

Definition res_bind {A B} (m : Res A) (k : A → Res B) : Res B :=
  match m with
  | Done a => k a
  | Panic msg => Panic msg
  | Disabled => Disabled
  end.

Notation "x ←! m ; k" := (res_bind m (λ x, k))
  (at level 20, m at level 100, k at level 200, right associativity,
   format "x  ←!  m ;  '/' k").

(** * The streaming sync client (flag_config_stream_api.go) *)
Module StreamApi.

(** [const MAX_JITTER = 5 * time.Second], in nanoseconds. *)
Definition MAX_JITTER : Z := 5 * 1000000000.

(** A parsed URL; [Path] is the one field [Connect] assigns. *)
Record URL := { Raw : string; Path : string }.

(** The library calls of [Connect] and [parseData]:
    [json.Unmarshal(data, &flagsArray)] with [flagsArray : []*evaluation.Flag]
    (a decoding error, or the decoded array of pointers, where a JSON null
    element decodes to the nil pointer [None]), [url.Parse] and the [String]
    method of the URL. *)
Class Library := {
  json_Unmarshal : list Byte.byte → error + list (option Flag);
  url_Parse : string → error + URL;
  URL_String : URL → string
}.

(** The loop [for _, flag := range flagsArray { flags[flag.Key] = flag }]
    on an array without nil pointers. *)
Definition rekey (flagsArray : list Flag) : gmap string Flag :=
  foldl (λ flags flag, <[Key flag := flag]> flags) ∅ flagsArray.

(** What the Go runtime reports when [flag.Key] is read through a nil
    pointer. *)
Definition nil_dereference : string :=
  "runtime error: invalid memory address or nil pointer dereference".

(** The same loop on the decoded array of pointers: [flag.Key] on a nil
    pointer panics, at the first nil element. *)
Definition rekeyPtrs (flagsArray : list (option Flag))
  : Res (gmap string Flag) :=
  foldl (λ acc flag,
           flags ←! acc;
           match flag with
           | Some f => Done (<[Key f := f]> flags)
           | None => Panic nil_dereference
           end)
        (Done ∅) flagsArray.

(** [parseData]: the pair (flags, err) it returns, or the panic of its
    loop. *)
Definition parseData `{Library} (data : list Byte.byte)
  : Res (error + gmap string Flag) :=
  match json_Unmarshal data with
  | inl err => Done (inl err)
  | inr flagsArray => flags ←! rekeyPtrs flagsArray; Done (inr flags)
  end.

(** The struct.  A callback that is [nil] is [None] ([false] for [OnError],
    whose calls are only logged); [stopCh] is [None] for a nil channel and
    otherwise names the connection whose stop channel it is.  The mutex is
    not a field: a critical section is one atomic step below. *)
Record flagConfigStreamApiV2 := {
  OnInitUpdate : option (gmap string Flag → option error);
  OnUpdate : option (gmap string Flag → option error);
  OnError : bool;
  DeploymentKey : string;
  ServerURL : string;
  connectionTimeout : Z;
  keepaliveTimeout : Z;
  reconnInterval : Z;
  stopCh : option nat
}.

Definition NewFlagConfigStreamApiV2 (deploymentKey serverURL : string)
    (connectionTimeout keepaliveTimeout reconnInterval : Z)
  : flagConfigStreamApiV2 :=
  {| OnInitUpdate := None; OnUpdate := None; OnError := false;
     DeploymentKey := deploymentKey; ServerURL := serverURL;
     connectionTimeout := connectionTimeout;
     keepaliveTimeout := keepaliveTimeout;
     reconnInterval := reconnInterval;
     stopCh := None |}.

Definition set_stopCh (ch : option nat) (a : flagConfigStreamApiV2)
  : flagConfigStreamApiV2 :=
  {| OnInitUpdate := OnInitUpdate a; OnUpdate := OnUpdate a;
     OnError := OnError a; DeploymentKey := DeploymentKey a;
     ServerURL := ServerURL a; connectionTimeout := connectionTimeout a;
     keepaliveTimeout := keepaliveTimeout a;
     reconnInterval := reconnInterval a; stopCh := ch |}.

(** The arguments of [NewSseStream]. *)
Record SseStream := {
  authHeader : string;
  streamUrl : string;
  sseConnTimeout : Z;
  sseKeepalive : Z;
  sseReconnInterval : Z;
  sseMaxJitter : Z
}.

(** Where the goroutine started by a successful [Connect] stands:
    not started, in its [select], inside [closeAllAndNotify err] before the
    mutex is taken, or returned. *)
Inductive LoopState := NoLoop | Running | Handling (err : error) | Exited.

(** Everything one [Connect] call creates: the stream with its two channels,
    the stop channel ([None]: never made; [Some closed]), the goroutine, and
    the log of [OnError] calls and of asynchronous [OnUpdate] deliveries. *)
Record Conn := {
  stream : SseStream;
  cancelled : bool;
  msgChClosed : bool;
  errChClosed : bool;
  stopChan : option bool;
  loop : LoopState;
  notified : list error;
  delivered : list (gmap string Flag)
}.

(** The client, the connections made so far (a stop channel is named by the
    index of its connection) and the flags handed to the initial callback. *)
Record World := {
  api : flagConfigStreamApiV2;
  conns : list Conn;
  initUpdates : list (gmap string Flag)
}.

Definition set_conn (i : nat) (c : Conn) (w : World) : World :=
  {| api := api w; conns := <[i := c]> (conns w);
     initUpdates := initUpdates w |}.

Definition set_api (a : flagConfigStreamApiV2) (w : World) : World :=
  {| api := a; conns := conns w; initUpdates := initUpdates w |}.

(** [close(ch)]: closing a closed channel panics. *)
Definition close_chan (closed : bool) : Res bool :=
  if closed then Panic "close of closed channel" else Done true.

(** The closure [closeStream]: [stream.Cancel(); close(streamMsgCh);
    close(streamErrCh)]. *)
Definition closeStream (c : Conn) : Res Conn :=
  m ←! close_chan (msgChClosed c);
  e ←! close_chan (errChClosed c);
  Done {| stream := stream c; cancelled := true; msgChClosed := m;
          errChClosed := e; stopChan := stopChan c; loop := loop c;
          notified := notified c; delivered := delivered c |}.

(** [close(stopCh)] on the stop channel of a connection. *)
Definition close_stop (c : Conn) : Res Conn :=
  match stopChan c with
  | None => Disabled
  | Some closed =>
      s ←! close_chan closed;
      Done {| stream := stream c; cancelled := cancelled c;
              msgChClosed := msgChClosed c; errChClosed := errChClosed c;
              stopChan := Some s; loop := loop c; notified := notified c;
              delivered := delivered c |}
  end.

Definition set_loop (l : LoopState) (c : Conn) : Conn :=
  {| stream := stream c; cancelled := cancelled c;
     msgChClosed := msgChClosed c; errChClosed := errChClosed c;
     stopChan := stopChan c; loop := l; notified := notified c;
     delivered := delivered c |}.

Definition get_conn (i : nat) (w : World) : Res Conn :=
  match conns w !! i with Some c => Done c | None => Disabled end.

(** [closeInternal]: [if a.stopCh != nil { close(a.stopCh); a.stopCh = nil }]. *)
Definition closeInternal (w : World) : Res World :=
  match stopCh (api w) with
  | None => Done w
  | Some i =>
      c ←! get_conn i w;
      c' ←! close_stop c;
      Done (set_api (set_stopCh None (api w)) (set_conn i c' w))
  end.

(** [Close]: [closeInternal] under the mutex; it returns [nil]. *)
Definition Close (w : World) : Res (option error * World) :=
  w' ←! closeInternal w;
  Done (None, w').

(** The three cases of the [select] in [Connect]; the scheduler picks one. *)
Inductive Race :=
| FirstMsg (data : list Byte.byte)
| StreamErr (err : error)
| Timeout.

(** [NewSseStream("Api-Key " + a.DeploymentKey, endpoint.String(), ...)]
    followed by [stream.Connect(streamMsgCh, streamErrCh)]: a fresh
    connection with both channels open and no stop channel yet. *)
Definition NewSseStream `{Library} (a : flagConfigStreamApiV2) (endpoint : URL)
  : Conn :=
  {| stream := {| authHeader := "Api-Key " +:+ DeploymentKey a;
                  streamUrl := URL_String endpoint;
                  sseConnTimeout := connectionTimeout a;
                  sseKeepalive := keepaliveTimeout a;
                  sseReconnInterval := reconnInterval a;
                  sseMaxJitter := MAX_JITTER |};
     cancelled := false; msgChClosed := false; errChClosed := false;
     stopChan := None; loop := NoLoop; notified := []; delivered := [] |}.

(** A failing exit of [Connect] after the stream was made:
    [closeStream(); return err]. *)
Definition connect_fail (r : Race) (c : Conn) (err : error) (w : World)
  : Res (option error * option Race * World) :=
  c' ←! closeStream c;
  Done (Some err, Some r,
        {| api := api w; conns := conns w ++ [c'];
           initUpdates := initUpdates w |}).

(** The callback of the first message: [OnInitUpdate] if set, else
    [OnUpdate] if set, else none. *)
Definition initCallback (a : flagConfigStreamApiV2)
  : option (gmap string Flag → option error) :=
  match OnInitUpdate a with
  | Some f => Some f
  | None => OnUpdate a
  end.

(** [Connect], one atomic step: the mutex is held from entry to return.
    The result is the returned error, the [select] case that was taken (if
    the [select] was reached) and the new world; a panic of [parseData] on
    the first message is a panic of [Connect]. *)
Definition Connect `{Library} (r : Race) (w : World)
  : Res (option error * option Race * World) :=
  w1 ←! closeInternal w;
  match url_Parse (ServerURL (api w1)) with
  | inl err => Done (Some err, None, w1)
  | inr parsed =>
      let endpoint := {| Raw := Raw parsed; Path := "sdk/stream/v1/flags" |} in
      let c := NewSseStream (api w1) endpoint in
      let i := length (conns w1) in
      match r with
      | FirstMsg data =>
          parsed ←! parseData data;
          match parsed with
          | inl err =>
              connect_fail r c ("stream corrupt data, cause: " +:+ err) w1
          | inr flags =>
              let cb := initCallback (api w1) in
              let err := from_option (λ f, f flags) None cb in
              let w2 := {| api := api w1; conns := conns w1;
                           initUpdates :=
                             initUpdates w1 ++
                             match cb with Some _ => [flags] | None => [] end
                        |} in
              match err with
              | Some e => connect_fail r c e w2
              | None =>
                  let c' := {| stream := stream c; cancelled := false;
                               msgChClosed := false; errChClosed := false;
                               stopChan := Some false; loop := Running;
                               notified := []; delivered := [] |} in
                  Done (None, Some r,
                        {| api := set_stopCh (Some i) (api w2);
                           conns := conns w2 ++ [c'];
                           initUpdates := initUpdates w2 |})
              end
          end
      | StreamErr err => connect_fail r c err w1
      | Timeout => connect_fail r c "stream connect timeout" w1
      end
  end.

(** [closeAllAndNotify(err)] of connection [i], one atomic step under the
    mutex: [closeStream(); if a.stopCh == stopCh { a.stopCh = nil };
    close(stopCh); if a.OnError != nil { a.OnError(err) }]. *)
Definition closeAllAndNotify (i : nat) (err : error) (w : World) : Res World :=
  c ←! get_conn i w;
  c1 ←! closeStream c;
  let a := if decide (stopCh (api w) = Some i)
           then set_stopCh None (api w) else api w in
  c2 ←! close_stop c1;
  let c3 := {| stream := stream c2; cancelled := cancelled c2;
               msgChClosed := msgChClosed c2; errChClosed := errChClosed c2;
               stopChan := stopChan c2; loop := Exited;
               notified := if OnError a then notified c2 ++ [err]
                           else notified c2;
               delivered := delivered c2 |} in
  Done (set_api a (set_conn i c3 w)).

(** What the scheduler can do next: a caller runs [Connect] or [Close], or
    the goroutine of connection [i] takes a case of its [select] (the stop
    channel is closed, a message arrives, the stream reports an error), or
    enters the critical section of [closeAllAndNotify]. *)
Inductive Event :=
| CallConnect (r : Race)
| CallClose
| LoopStop (i : nat)
| LoopMsg (i : nat) (data : list Byte.byte)
| LoopErr (i : nat) (err : error)
| LoopNotify (i : nat).

Definition is_running (c : Conn) : bool :=
  match loop c with Running => true | _ => false end.

Definition step `{Library} (ev : Event) (w : World) : Res World :=
  match ev with
  | CallConnect r => x ←! Connect r w; Done x.2
  | CallClose => x ←! Close w; Done x.2
  | LoopStop i =>
      c ←! get_conn i w;
      if is_running c && bool_decide (stopChan c = Some true) then
        c' ←! closeStream c;
        Done (set_conn i (set_loop Exited c') w)
      else Disabled
  | LoopMsg i data =>
      c ←! get_conn i w;
      if is_running c then
        parsed ←! parseData data;
        match parsed with
        | inl err =>
            Done (set_conn i
                    (set_loop
                       (Handling ("stream corrupt data, cause: " +:+ err)) c)
                    w)
        | inr flags =>
            Done (set_conn i
                    {| stream := stream c; cancelled := cancelled c;
                       msgChClosed := msgChClosed c;
                       errChClosed := errChClosed c;
                       stopChan := stopChan c; loop := loop c;
                       notified := notified c;
                       delivered := match OnUpdate (api w) with
                                    | Some _ => delivered c ++ [flags]
                                    | None => delivered c
                                    end |} w)
        end
      else Disabled
  | LoopErr i err =>
      c ←! get_conn i w;
      if is_running c then Done (set_conn i (set_loop (Handling err) c) w)
      else Disabled
  | LoopNotify i =>
      c ←! get_conn i w;
      match loop c with
      | Handling err => closeAllAndNotify i err w
      | _ => Disabled
      end
  end.

(** A schedule, run from left to right. *)
Fixpoint run `{Library} (evs : list Event) (w : World) : Res World :=
  match evs with
  | [] => Done w
  | ev :: evs' => w' ←! step ev w; run evs' w'
  end.

(** The world right after [NewFlagConfigStreamApiV2] (possibly with the
    callbacks assigned): no stop channel, no connection. *)
Definition start (a : flagConfigStreamApiV2) : World :=
  {| api := set_stopCh None a; conns := []; initUpdates := [] |}.

(** The transport of a connection is released: [stream.Cancel()] was called
    and both of its channels are closed. *)
Definition released (c : Conn) : bool :=
  cancelled c && msgChClosed c && errChClosed c.

(** The first message is parsed and the initial callback, if any, returns
    nil: the one case in which [Connect] goes on past its [select]. *)
Definition accepted `{Library} (a : flagConfigStreamApiV2) (r : Race) : bool :=
  match r with
  | FirstMsg data =>
      match parseData data with
      | Done (inr flags) =>
          match from_option (λ f, f flags) None (initCallback a) with
          | None => true
          | Some _ => false
          end
      | _ => false
      end
  | _ => false
  end.

(** The payload, if it decodes, decodes to an array without a null element:
    the loop of [parseData] then meets no nil pointer. *)
Definition no_null `{Library} (data : list Byte.byte) : Prop :=
  ∀ flagsArray, json_Unmarshal data = inr flagsArray → None ∉ flagsArray.

(** The same of the first message, when the race produces one. *)
Definition race_no_null `{Library} (r : Race) : Prop :=
  match r with
  | FirstMsg data => no_null data
  | _ => True
  end.

(** The flags [Connect] hands to the initial callback: those of a first
    message that parses, if a callback is registered; nothing in every
    other case of the [select]. *)
Definition firstFlags `{Library} (a : flagConfigStreamApiV2) (r : Race)
  : list (gmap string Flag) :=
  match r with
  | FirstMsg data =>
      match parseData data, initCallback a with
      | Done (inr flags), Some _ => [flags]
      | _, _ => []
      end
  | _ => []
  end.

(** The goroutine of connection [i] takes a transport error [e] from the
    stream, or a message that does not parse ([e] is then the error it
    builds). *)
Definition transport_failure `{Library} (i : nat) (ev : Event) (e : error)
  : Prop :=
  ev = LoopErr i e ∨
  ∃ data e0, ev = LoopMsg i data ∧ parseData data = Done (inl e0) ∧
             e = "stream corrupt data, cause: " +:+ e0.

(** ** The invariant of the scheduler model *)

(** A world is reachable when some schedule leads to it from a fresh client. *)
Definition reachable `{Library} (w : World) : Prop :=
  ∃ a evs, run evs (start a) = Done w.

(** What holds of a connection, given whether its stop channel is the one
    the client currently holds ([active]). *)
Definition conn_ok (active : bool) (c : Conn) : Prop :=
  match loop c with
  | NoLoop =>
      stopChan c = None ∧ released c = true ∧ active = false ∧
      notified c = []
  | Running | Handling _ =>
      stopChan c = Some (negb active) ∧ cancelled c = false ∧
      msgChClosed c = false ∧ errChClosed c = false ∧ notified c = []
  | Exited =>
      stopChan c = Some true ∧ released c = true ∧ active = false ∧
      length (notified c) ≤ 1
  end.

Definition wf (w : World) : Prop :=
  (∀ i c, conns w !! i = Some c →
          conn_ok (bool_decide (stopCh (api w) = Some i)) c) ∧
  (∀ i, stopCh (api w) = Some i → i < length (conns w)).

End StreamApi.

(** * Assignment events (assignment_service.go) *)
Module Assignment.

(** [const DayMillis = 24 * 60 * 60 * 1000] *)
Definition DayMillis : Z := 24 * 60 * 60 * 1000.

(** Modelled from the spec: the declarations of the user, of the evaluation
    result and of the assignment are not among the sources.  A user has an
    identifier, a device identifier, group memberships (group type to the
    ordered list of group names) and the two enrichment outputs. *)
Record User := {
  UserId : string;
  DeviceId : string;
  Groups : option (gmap string (list string));
  CohortIds : gset string;
  GroupCohortIds : gmap string (gmap string (gset string))
}.

Record ResultVariant := { VariantKey : string }.

(** The fields of a result that [toEvent] reads. *)
Record Result := {
  Variant : ResultVariant;
  Type_ : string;
  IsDefaultVariant : bool
}.

Record assignment := {
  user : User;
  results : gmap string Result;
  timestamp : Z
}.

(** The fields of [amplitude.Event] that [toEvent] fills. *)
Record Event := {
  EventType : string;
  UserID : string;
  DeviceID : string;
  EventProperties : gmap string Value;
  UserProperties : gmap string (gmap string Value);
  InsertID : string
}.

(** The helpers of [toEvent] and [Track] that live in other files:
    [assignment.Canonicalize], [hashCode], and the dedup filter with its
    state. *)
Class Helpers := {
  Canonicalize : assignment → string;
  hashCode : string → Z;
  AssignmentFilter : Type;
  shouldTrack : AssignmentFilter → assignment → bool * AssignmentFilter
}.

Definition FlagTypeMutualExclusionGroup : string := "mutual-exclusion-group".

(** First loop: [event.EventProperties[resultsKey + ".variant"] =
    result.Variant.Key]. *)
Definition eventProperties (rs : gmap string Result) : gmap string Value :=
  map_fold (λ resultsKey result props,
              <[resultsKey +:+ ".variant" :=
                  VString (VariantKey (Variant result))]> props) ∅ rs.

(** Second loop, on the pair [(set, unset)]. *)
Definition userProperties (rs : gmap string Result)
  : gmap string Value * gmap string Value :=
  map_fold (λ resultsKey result su,
              if decide (Type_ result = FlagTypeMutualExclusionGroup) then su
              else if IsDefaultVariant result then
                (su.1, <["[Experiment] " +:+ resultsKey := VString "-"]> su.2)
              else
                (<["[Experiment] " +:+ resultsKey :=
                     VString (VariantKey (Variant result))]> su.1, su.2))
           (∅, ∅) rs.

(** [fmt.Sprintf("%s %s %d %d", ...)]: [%d] prints a signed decimal, and [/]
    on Go integers truncates toward zero. *)
Definition insertID `{Helpers} (a : assignment) : string :=
  UserId (user a) +:+ " " +:+ DeviceId (user a) +:+ " " +:+
  pretty (hashCode (Canonicalize a)) +:+ " " +:+
  pretty (timestamp a `quot` DayMillis)%Z.

Definition toEvent `{Helpers} (a : assignment) : Event :=
  let su := userProperties (results a) in
  {| EventType := "[Experiment] Assignment";
     UserID := UserId (user a);
     DeviceID := DeviceId (user a);
     EventProperties := eventProperties (results a);
     UserProperties := <["$unset" := su.2]> (<["$set" := su.1]> ∅);
     InsertID := insertID a |}.

(** What one result puts into the [$set] map and into the [$unset] map,
    read off the three branches of the second loop. *)
Definition setEntry (r : Result) : option Value :=
  if decide (Type_ r = FlagTypeMutualExclusionGroup) then None
  else if IsDefaultVariant r then None
  else Some (VString (VariantKey (Variant r))).

Definition unsetEntry (r : Result) : option Value :=
  if decide (Type_ r = FlagTypeMutualExclusionGroup) then None
  else if IsDefaultVariant r then Some (VString "-")
  else None.

(** The service: the filter and the events handed to the analytics client. *)
Record AssignmentService `{Helpers} := {
  Filter : AssignmentFilter;
  Amplitude : list Event
}.

Definition Track `{Helpers} (s : AssignmentService) (a : assignment)
  : AssignmentService :=
  let '(ok, filter) := shouldTrack (Filter s) a in
  {| Filter := filter;
     Amplitude := if ok then Amplitude s ++ [toEvent a] else Amplitude s |}.

End Assignment.

(** * The client (client.go) *)
Module Client.
Import Assignment.

(** [experiment.Variant], the caller-facing variant.  Its metadata is read
    only, so it is the content of the map. *)
Record Variant := {
  VKey : string;
  VValue : string;
  VPayload : Value;
  VMetadata : gmap string Value
}.

(** A result of the evaluation engine: [Key], [Value], [Payload] and
    [Metadata] are the fields [EvaluateV2] copies. *)
Record EngineVariant := {
  EKey : string;
  EValue : Value;
  EPayload : Value;
  EMetadata : gmap string Value
}.

(** What [client.go] calls and the sources do not contain: the constant
    [userGroupType], [getGroupedCohortIDsFromFlags], the two lookups of the
    [CohortStorage] interface, [topologicalSort], the evaluation engine with
    [evaluation.UserToContext], [newAssignment] (which reads the clock, here
    the argument [now]), and the library calls [json.Marshal] and
    [fmt.Sprintf("%v", _)]. *)
Class Collaborators `{Helpers} := {
  userGroupType : string;
  getGroupedCohortIDsFromFlags : list Flag → gmap string (gset string);
  GetCohortsForUser : string → gset string → gset string;
  GetCohortsForGroup : string → string → gset string → gset string;
  topologicalSort : gmap string Flag → list string → error + list Flag;
  Context : Type;
  UserToContext : User → Context;
  engine_Evaluate : Context → list Flag → gmap string EngineVariant;
  newAssignment : Z → User → gmap string Variant → assignment;
  json_Marshal : Value → error + string;
  fmt_v : Value → string
}.

(** The state of a [Client] that the modelled methods read or write: the
    snapshot held by [flagConfigStorage], the Go map objects that flag
    metadata point to, and the assignment service ([None] when nil). *)
Record Client `{Helpers} := {
  flagConfigStorage : gmap string Flag;
  heap : gmap loc (gmap string Value);
  assignmentService : option AssignmentService
}.

(** [contains] *)
Fixpoint contains (s : list string) (e : string) : bool :=
  match s with
  | [] => false
  | a :: s' => if decide (a = e) then true else contains s' e
  end.

(** [coerceString]: nil gives the empty string; a map, slice or array is
    marshalled, and formatted with [%v] if that fails; the rest is
    formatted with [%v]. *)
Definition coerceString `{Collaborators} (value : Value) : string :=
  match value with
  | VNil => ""
  | VSlice _ | VMap _ =>
      match json_Marshal value with
      | inr b => b
      | inl _ => fmt_v value
      end
  | _ => fmt_v value
  end.

(** Modelled from the spec: [AddGroupCohortIDs] is a method of the user type,
    which is not among the sources; it records the cohort ids under
    (group type, group name). *)
Definition AddGroupCohortIDs (groupType groupName : string)
    (cohortIDs : gset string) (u : User) : User :=
  {| UserId := UserId u; DeviceId := DeviceId u; Groups := Groups u;
     CohortIds := CohortIds u;
     GroupCohortIds :=
       <[groupType :=
           <[groupName := cohortIDs]>
             (default ∅ (GroupCohortIds u !! groupType))]>
         (GroupCohortIds u) |}.

Definition set_CohortIds (ids : gset string) (u : User) : User :=
  {| UserId := UserId u; DeviceId := DeviceId u; Groups := Groups u;
     CohortIds := ids; GroupCohortIds := GroupCohortIds u |}.

(** The body of the loop over [user.Groups]. *)
Definition enrichGroup `{Collaborators}
    (groupedCohortIDs : gmap string (gset string))
    (groupType : string) (groupNames : list string) (u : User) : User :=
  let groupName := match groupNames with n :: _ => n | [] => "" end in
  if decide (groupName = "") then u
  else match groupedCohortIDs !! groupType with
       | Some cohortIDs =>
           AddGroupCohortIDs groupType groupName
             (GetCohortsForGroup groupType groupName cohortIDs) u
       | None => u
       end.

(** [enrichUser]: the user is updated in place, so the result is the new
    value of the caller's user; the returned error is always nil.  The slice
    of flags is built by ranging over the map, in an order Go leaves open;
    the order of [map_to_list] stands for it. *)
Definition enrichUser `{Collaborators} (u : User)
    (flagConfigs : gmap string Flag) : User * option error :=
  let flagConfigSlice := (map_to_list flagConfigs).*2 in
  let groupedCohortIDs := getGroupedCohortIDsFromFlags flagConfigSlice in
  let u1 :=
    match groupedCohortIDs !! userGroupType with
    | Some cohortIDs =>
        if bool_decide (0 < size cohortIDs) &&
           bool_decide (UserId u ≠ "")
        then set_CohortIds (GetCohortsForUser (UserId u) cohortIDs) u
        else u
    | None => u
    end in
  let u2 :=
    match Groups u1 with
    | Some groups => map_fold (enrichGroup groupedCohortIDs) u1 groups
    | None => u1
    end in
  (u2, None).

(** The conversion loop of [EvaluateV2]. *)
Definition toVariants `{Collaborators} (rs : gmap string EngineVariant)
  : gmap string Variant :=
  map_fold (λ key result variants,
              <[key := {| VKey := EKey result;
                          VValue := coerceString (EValue result);
                          VPayload := EPayload result;
                          VMetadata := EMetadata result |}]> variants) ∅ rs.

(** [EvaluateV2].  The Go pair [(variants, err)] is a pair of options
    ([None] for nil); the user and the client after the call are returned
    too. *)
Definition EvaluateV2 `{Collaborators} (now : Z) (c : Client) (u : User)
    (flagKeys : list string)
  : option (gmap string Variant) * option error * User * Client :=
  let flagConfigs := flagConfigStorage c in
  let '(enrichedUser, err) := enrichUser u flagConfigs in
  match err with
  | Some e => (None, Some e, enrichedUser, c)
  | None =>
      let userContext := UserToContext enrichedUser in
      match topologicalSort flagConfigs flagKeys with
      | inl e => (None, Some e, enrichedUser, c)
      | inr sortedFlags =>
          let rs := engine_Evaluate userContext sortedFlags in
          let variants := toVariants rs in
          let c' :=
            match assignmentService c with
            | Some svc =>
                {| flagConfigStorage := flagConfigStorage c;
                   heap := heap c;
                   assignmentService :=
                     Some (Track svc
                             (newAssignment now enrichedUser variants)) |}
            | None => c
            end in
          (Some variants, None, enrichedUser, c')
      end
  end.

(** The type assertion [variant.Metadata[key].(bool)]. *)
Definition metadataBool (v : Variant) (key : string) : bool * bool :=
  match VMetadata v !! key with
  | Some (VBool b) => (b, true)
  | _ => (false, false)
  end.

(** The body of the loop of [Evaluate]. *)
Definition keepVariant (key : string) (variant : Variant)
    (rs : gmap string Variant) : gmap string Variant :=
  let '(isDefault, ok) := metadataBool variant "default" in
  let isDefault := if ok then isDefault else false in
  let '(isDeployed, ok) := metadataBool variant "deployed" in
  let isDeployed := if ok then isDeployed else true in
  if negb isDefault && isDeployed then <[key := variant]> rs else rs.

(** [Evaluate] (deprecated). *)
Definition Evaluate `{Collaborators} (now : Z) (c : Client) (u : User)
    (flagKeys : list string)
  : option (gmap string Variant) * option error * User * Client :=
  let '(variants, err, u', c') := EvaluateV2 now c u flagKeys in
  match err with
  | Some e => (None, Some e, u', c')
  | None => (Some (map_fold keepVariant ∅ (default ∅ variants)), None, u', c')
  end.

(** A variant is marked default: a missing or non-boolean entry counts as
    not default. *)
Definition marksDefault (v : Variant) : bool :=
  match VMetadata v !! "default" with
  | Some (VBool b) => b
  | _ => false
  end.

(** A variant is marked deployed: a missing or non-boolean entry counts as
    deployed. *)
Definition marksDeployed (v : Variant) : bool :=
  match VMetadata v !! "deployed" with
  | Some (VBool b) => b
  | _ => true
  end.

(** The grouped cohort ids that [enrichUser] computes from the snapshot. *)
Definition groupedCohortIDsOf `{Collaborators}
    (flagConfigs : gmap string Flag) : gmap string (gset string) :=
  getGroupedCohortIDsFromFlags (map_to_list flagConfigs).*2.

(** What enrichment leaves under a group type, given the user's group names
    of that type and the entry before: only the first name counts. *)
Definition groupEntry `{Collaborators}
    (grouped : gmap string (gset string)) (groupType : string)
    (names : option (list string)) (old : option (gmap string (gset string)))
  : option (gmap string (gset string)) :=
  match names with
  | Some (groupName :: _) =>
      if decide (groupName = "") then old
      else match grouped !! groupType with
           | Some cohortIDs =>
               Some (<[groupName :=
                         GetCohortsForGroup groupType groupName cohortIDs]>
                       (default ∅ old))
           | None => old
           end
  | _ => old
  end.

(** Modelled from the spec: [topologicalSort] is not among the sources.  A
    flag comes after all the flags it depends on; a dependency cycle and a
    dependency on a key that is not in the snapshot are errors.  [visit]
    walks the dependencies of one flag depth first, [path] being the flags
    under visit and [acc] the flags already ordered. *)
Fixpoint visit (fuel : nat) (flags : gmap string Flag) (path : list string)
    (key : string) (acc : list Flag) : error + list Flag :=
  match fuel with
  | 0 => inl ("detected a cycle at flag " +:+ key)
  | S n =>
      if contains path key then inl ("detected a cycle at flag " +:+ key)
      else if contains (Key <$> acc) key then inr acc
      else
        match flags !! key with
        | None => inl ("missing dependency " +:+ key)
        | Some f =>
            match
              foldl (λ r dep,
                       match r with
                       | inl e => inl e
                       | inr acc' => visit n flags (key :: path) dep acc'
                       end)
                    (inr acc) (Dependencies f)
            with
            | inl e => inl e
            | inr acc' => inr (acc' ++ [f])
            end
        end
  end.

(** Modelled from the spec: the ordering of the requested flags; a requested
    key that is not in the snapshot is passed over. *)
Definition spec_topologicalSort (flags : gmap string Flag)
    (flagKeys : list string) : error + list Flag :=
  foldl (λ r key,
           match r with
           | inl e => inl e
           | inr acc =>
               match flags !! key with
               | None => inr acc
               | Some _ => visit (S (size flags)) flags [] key acc
               end
           end)
        (inr []) flagKeys.

(** Modelled from the spec: [GetFlagConfig] belongs to the flag-config
    storage, which is not among the sources; it is get-one-by-key and gives
    nil for an absent key. *)
Definition GetFlagConfig `{Helpers} (c : Client) (flagKey : string)
  : option Flag :=
  flagConfigStorage c !! flagKey.

(** Reading a Go map through a reference; ranging over a nil map ranges over
    nothing. *)
Definition deref (h : gmap loc (gmap string Value)) (r : option loc)
  : gmap string Value :=
  match r with
  | Some l => default ∅ (h !! l)
  | None => ∅
  end.

(** [FlagMetadata]: [make] allocates a map object at an unused address, the
    loop copies the entries, and the reference to the new object is
    returned ([None] is the nil map). *)
Definition FlagMetadata `{Helpers} (c : Client) (flagKey : string)
  : option loc * Client :=
  match GetFlagConfig c flagKey with
  | None => (None, c)
  | Some f =>
      let l := fresh (dom (heap c)) in
      let metadata :=
        map_fold (λ k v metadata, <[k := v]> metadata) ∅
                 (deref (heap c) (Metadata f)) in
      (Some l,
       {| flagConfigStorage := flagConfigStorage c;
          heap := <[l := metadata]> (heap c);
          assignmentService := assignmentService c |})
  end.

(** Every metadata reference of the snapshot points to an allocated map. *)
Definition heap_closed `{Helpers} (c : Client) : Prop :=
  ∀ k f l, flagConfigStorage c !! k = Some f → Metadata f = Some l →
           is_Some (heap c !! l).

(** An assignment [m[k] = v] through a map reference. *)
Definition map_store (r : loc) (k : string) (v : Value)
    (h : gmap loc (gmap string Value)) : gmap loc (gmap string Value) :=
  <[r := <[k := v]> (default ∅ (h !! r))]> h.

(** [delete(m, k)] through a map reference. *)
Definition map_delete (r : loc) (k : string)
    (h : gmap loc (gmap string Value)) : gmap loc (gmap string Value) :=
  <[r := delete k (default ∅ (h !! r))]> h.

(** The user-level cohort ids after enrichment, as the first [if] of
    [enrichUser] leaves them. *)
Definition userCohortIds `{Collaborators}
    (grouped : gmap string (gset string)) (u : User) : gset string :=
  match grouped !! userGroupType with
  | Some cohortIDs =>
      if bool_decide (0 < size cohortIDs) && bool_decide (UserId u ≠ "")
      then GetCohortsForUser (UserId u) cohortIDs
      else CohortIds u
  | None => CohortIds u
  end.

(** The variant [EvaluateV2] builds from one result of the engine. *)
Definition toVariant `{Collaborators} (result : EngineVariant) : Variant :=
  {| VKey := EKey result; VValue := coerceString (EValue result);
     VPayload := EPayload result; VMetadata := EMetadata result |}.

(** The package variables of [Initialize]: the registry [clients] and
    [initMutex] ([true] while locked). *)
Record Registry (C : Type) := {
  clients : gmap string C;
  initMutex : bool
}.
Arguments clients {C} _.
Arguments initMutex {C} _.

(** How a call of [Initialize] ends: it returns a client, it panics, or it
    waits for [initMutex] for ever.  The registry after the call comes with
    the first two. *)
Inductive Initialized (C : Type) :=
| Returned (client : C) (reg : Registry C)
| InitPanic (msg : string) (reg : Registry C)
| InitBlocked.
Arguments Returned {C} client reg.
Arguments InitPanic {C} msg reg.
Arguments InitBlocked {C}.

(** [Initialize].  Everything between [config = fillConfigDefaults(config)]
    and [client = &Client{...}] builds the new client from the key and the
    config with constructors that are outside the sources; it is the
    parameter [construct].  The mutex is locked on entry and unlocked before
    the return, but not before the panic. *)
Definition Initialize {C Config : Type} (construct : string → Config → C)
    (apiKey : string) (config : Config) (reg : Registry C) : Initialized C :=
  if initMutex reg then InitBlocked
  else
    match clients reg !! apiKey with
    | Some client => Returned client reg
    | None =>
        if decide (apiKey = "")
        then InitPanic "api key must be set"
               {| clients := clients reg; initMutex := true |}
        else
          let client := construct apiKey config in
          Returned client
            {| clients := <[apiKey := client]> (clients reg);
               initMutex := false |}
    end.

(** Reading a field of a decoded JSON object (a Go map, here the list of its
    entries, keys distinct). *)
Fixpoint lookupField (m : list (string * Value)) (k : string)
  : option Value :=
  match m with
  | [] => None
  | (k', v) :: m' => if decide (k' = k) then Some v else lookupField m' k
  end.

(** The two nested type switches of [doFlags]: the element is an object
    whose "flagKey" is a string. *)
Definition flagKeyOf (flagAny : Value) : option string :=
  match flagAny with
  | VMap flag =>
      match lookupField flag "flagKey" with
      | Some (VString flagKey) => Some flagKey
      | _ => None
      end
  | _ => None
  end.

(** The loop of [doFlags] over the decoded array. *)
Definition extractFlags (flagsArray : list Value) : gmap string Value :=
  foldl (λ flags flagAny,
           match flagKeyOf flagAny with
           | Some flagKey => <[flagKey := flagAny]> flags
           | None => flags
           end) ∅ flagsArray.

End Client.

(** * Stand-ins for the collaborators, used in the examples *)
Module Demo.
Import StreamApi.

(** A decoder for the examples: every byte of the payload is one element,
    the zero byte a null and any other byte a flag keyed by that character;
    the empty payload does not decode. *)
Definition demo_Unmarshal (data : list Byte.byte)
  : error + list (option Flag) :=
  match data with
  | [] => inl "unexpected end of JSON input"
  | _ =>
      inr ((λ b, match b with
                 | Byte.x00 => None
                 | _ => Some {| Key := String (Ascii.ascii_of_byte b) "";
                                FlagType := "release"; CohortIDs := ∅;
                                Dependencies := []; Metadata := None |}
                 end) <$> data)
  end.

Definition is_ctl (c : Ascii.ascii) : bool :=
  let n := Ascii.nat_of_ascii c in bool_decide (n < 32) || bool_decide (n = 127).

(** The double quote, and Go's [%q] of an ASCII string: control characters,
    the quote and the backslash are escaped. *)
Definition dquote : string := String (Ascii.ascii_of_nat 34) "".

Definition hex_digit (n : nat) : Ascii.ascii :=
  Ascii.ascii_of_nat (if bool_decide (n < 10) then 48 + n else 87 + n).

Definition quote_char (c : Ascii.ascii) : string :=
  let n := Ascii.nat_of_ascii c in
  let backslash := Ascii.ascii_of_nat 92 in
  if bool_decide (n = 7) then "\a"
  else if bool_decide (n = 8) then "\b"
  else if bool_decide (n = 9) then "\t"
  else if bool_decide (n = 10) then "\n"
  else if bool_decide (n = 11) then "\v"
  else if bool_decide (n = 12) then "\f"
  else if bool_decide (n = 13) then "\r"
  else if bool_decide (n = 34) then String backslash dquote
  else if bool_decide (n = 92) then String backslash (String backslash "")
  else if is_ctl c
       then String backslash
              (String (Ascii.ascii_of_nat 120)
                 (String (hex_digit (n / 16))
                    (String (hex_digit (n mod 16)) "")))
  else String c "".

Definition quote (s : string) : string :=
  dquote +:+
  foldr (λ c acc, quote_char c +:+ acc) "" (String.list_ascii_of_string s)
  +:+ dquote.

(** Of Go's [url.Parse], the first check only: a URL that contains an ASCII
    control character is rejected, with the text of the [url.Error]. *)
Definition demo_url_Parse (rawURL : string) : error + URL :=
  if existsb is_ctl (String.list_ascii_of_string rawURL)
  then inl ("parse " +:+ quote rawURL +:+
            ": net/url: invalid control character in URL")
  else inr {| Raw := rawURL; Path := "" |}.

Definition demo_Library : Library :=
  {| json_Unmarshal := demo_Unmarshal;
     url_Parse := demo_url_Parse;
     URL_String := λ u, Raw u +:+ Path u |}.

(** A client with an error callback and an update callback that accepts
    every snapshot. *)
Definition demo_api : flagConfigStreamApiV2 :=
  {| OnInitUpdate := None; OnUpdate := Some (λ _, None); OnError := true;
     DeploymentKey := "server-key";
     ServerURL := "https://stream.example.com/";
     connectionTimeout := 1500; keepaliveTimeout := 17000;
     reconnInterval := 15000; stopCh := None |}.

(** The same client with a DEL character in its server URL. *)
Definition bad_url_api : flagConfigStreamApiV2 :=
  {| OnInitUpdate := None; OnUpdate := Some (λ _, None); OnError := true;
     DeploymentKey := "server-key";
     ServerURL := String (Ascii.ascii_of_nat 127) "";
     connectionTimeout := 1500; keepaliveTimeout := 17000;
     reconnInterval := 15000; stopCh := None |}.

Definition demo_payload : list Byte.byte := [Byte.x61; Byte.x62].

Definition demo_flag (k : string) : Flag :=
  {| Key := k; FlagType := "release"; CohortIDs := ∅; Dependencies := [];
     Metadata := None |}.

(** The world after [Connect] succeeded on [demo_payload]. *)
Definition demo_connected : World :=
  {| api := set_stopCh (Some 0) demo_api;
     conns :=
       [ {| stream := {| authHeader := "Api-Key server-key";
                         streamUrl :=
                           "https://stream.example.com/sdk/stream/v1/flags";
                         sseConnTimeout := 1500; sseKeepalive := 17000;
                         sseReconnInterval := 15000;
                         sseMaxJitter := MAX_JITTER |};
            cancelled := false; msgChClosed := false; errChClosed := false;
            stopChan := Some false; loop := Running; notified := [];
            delivered := [] |} ];
     initUpdates := [rekey [demo_flag "a"; demo_flag "b"]] |}.

(** The world after the goroutine of that connection has taken the error
    "EOF" from the stream and before it enters [closeAllAndNotify]. *)
Definition demo_handling : World :=
  {| api := api demo_connected;
     conns := set_loop (Handling "EOF") <$> conns demo_connected;
     initUpdates := initUpdates demo_connected |}.

(** The world after [Close] has then run: the goroutine is about to handle
    the error of a connection the client no longer holds. *)
Definition demo_stale : World :=
  {| api := set_stopCh None demo_api;
     conns := (λ c, {| stream := stream c; cancelled := cancelled c;
                       msgChClosed := msgChClosed c;
                       errChClosed := errChClosed c;
                       stopChan := Some true; loop := loop c;
                       notified := notified c; delivered := delivered c |})
              <$> conns demo_handling;
     initUpdates := initUpdates demo_connected |}.

(** Stand-ins for the helpers of [toEvent]: a rendering of the user and of
    the "key variant" pairs, and a 32-bit polynomial string hash. *)
Definition demo_Canonicalize (a : Assignment.assignment) : string :=
  Assignment.UserId (Assignment.user a) +:+ " " +:+
  Assignment.DeviceId (Assignment.user a) +:+ " " +:+
  map_fold (λ k r acc,
              k +:+ " " +:+
              Assignment.VariantKey (Assignment.Variant r) +:+ " " +:+ acc)
           "" (Assignment.results a).

Definition demo_hashCode (s : string) : Z :=
  foldl (λ h c, (31 * h + Z.of_nat (Ascii.nat_of_ascii c)) `mod` 2 ^ 32)%Z
        0%Z (String.list_ascii_of_string s).

(** A filter that remembers the insert ids it has let through. *)
Definition demo_Helpers : Assignment.Helpers :=
  {| Assignment.Canonicalize := demo_Canonicalize;
     Assignment.hashCode := demo_hashCode;
     Assignment.AssignmentFilter := list string;
     Assignment.shouldTrack := λ seen a,
       let id := demo_Canonicalize a in
       if bool_decide (id ∈ seen) then (false, seen)
       else (true, id :: seen) |}.

Definition demo_user : Assignment.User :=
  {| Assignment.UserId := "user-1"; Assignment.DeviceId := "device-1";
     Assignment.Groups := Some {[ "org" := ["acme"; "globex"] ]};
     Assignment.CohortIds := ∅; Assignment.GroupCohortIds := ∅ |}.

Definition demo_results : gmap string Assignment.Result :=
  {[ "checkout-button" :=
       {| Assignment.Variant := {| Assignment.VariantKey := "on" |};
          Assignment.Type_ := "experiment";
          Assignment.IsDefaultVariant := false |};
     "holdout" :=
       {| Assignment.Variant := {| Assignment.VariantKey := "slot-1" |};
          Assignment.Type_ := "mutual-exclusion-group";
          Assignment.IsDefaultVariant := false |} ]}.

(** Two assignments of the same user on the same day. *)
Definition demo_assignment (t : Z) : Assignment.assignment :=
  {| Assignment.user := demo_user; Assignment.results := demo_results;
     Assignment.timestamp := t |}.

(** A cohort store, and the engine and helpers around it. *)
Definition demo_cohorts : gmap string (gset string) :=
  {[ "cohort-beta" := {[ "user-1" ]}; "cohort-orgs" := {[ "acme" ]} ]}.

Definition demo_members (who : string) (ids : gset string) : gset string :=
  filter (λ id, who ∈ default ∅ (demo_cohorts !! id)) ids.

Definition demo_grouped (flags : list Flag) : gmap string (gset string) :=
  foldr (λ f acc, union_with (λ a b, Some (a ∪ b)) (CohortIDs f) acc) ∅ flags.

Definition demo_engine (flags : list Flag)
  : gmap string Client.EngineVariant :=
  list_to_map
    ((λ f, (Key f,
            {| Client.EKey := "on"; Client.EValue := VBool true;
               Client.EPayload := VNil;
               Client.EMetadata :=
                 if decide (FlagType f = "mutual-exclusion-group")
                 then {[ "default" := VBool true ]}
                 else {[ "deployed" := VBool true ]} |})) <$> flags).

Definition demo_fmt_v (v : Value) : string :=
  match v with
  | VBool true => "true"
  | VBool false => "false"
  | VInt z => pretty z
  | VString s => s
  | _ => "<nil>"
  end.

Definition demo_newAssignment (now : Z) (u : Assignment.User)
    (variants : gmap string Client.Variant) : Assignment.assignment :=
  {| Assignment.user := u;
     Assignment.results :=
       (λ v, {| Assignment.Variant :=
                  {| Assignment.VariantKey := Client.VKey v |};
                Assignment.Type_ := "experiment";
                Assignment.IsDefaultVariant := Client.marksDefault v |})
       <$> variants;
     Assignment.timestamp := now |}.

Definition demo_Collaborators : @Client.Collaborators demo_Helpers :=
  {| Client.userGroupType := "User";
     Client.getGroupedCohortIDsFromFlags := demo_grouped;
     Client.GetCohortsForUser := demo_members;
     Client.GetCohortsForGroup := λ _ groupName ids,
                                    demo_members groupName ids;
     Client.topologicalSort := Client.spec_topologicalSort;
     Client.Context := Assignment.User;
     Client.UserToContext := id;
     Client.engine_Evaluate := λ _ flags, demo_engine flags;
     Client.newAssignment := demo_newAssignment;
     Client.json_Marshal := λ _, inl "json: unsupported value";
     Client.fmt_v := demo_fmt_v |}.

Definition checkout_button : Flag :=
  {| Key := "checkout-button"; FlagType := "experiment";
     CohortIDs := {[ "User" := {[ "cohort-beta" ]};
                     "org" := {[ "cohort-orgs" ]} ]};
     Dependencies := ["holdout"]; Metadata := Some 1%positive |}.

Definition holdout : Flag :=
  {| Key := "holdout"; FlagType := "mutual-exclusion-group";
     CohortIDs := ∅; Dependencies := []; Metadata := None |}.

Definition demo_heap : gmap loc (gmap string Value) :=
  {[ 1%positive := {[ "deployed" := VBool true;
                      "flagType" := VString "experiment" ]} ]}.

(** A client whose snapshot has both flags, and one whose snapshot lacks the
    flag that [checkout-button] depends on. *)
Definition demo_client : @Client.Client demo_Helpers :=
  {| Client.flagConfigStorage :=
       {[ "checkout-button" := checkout_button; "holdout" := holdout ]};
     Client.heap := demo_heap;
     Client.assignmentService :=
       Some (@Assignment.Build_AssignmentService demo_Helpers [] []) |}.

Definition broken_client : @Client.Client demo_Helpers :=
  {| Client.flagConfigStorage := {[ "checkout-button" := checkout_button ]};
     Client.heap := demo_heap;
     Client.assignmentService :=
       Some (@Assignment.Build_AssignmentService demo_Helpers [] []) |}.

(** Decoded elements as [doFlags] may meet them: two flag objects, an object
    whose "flagKey" is not a string, and a bare string. *)
Definition demo_flag_values : list Value :=
  [ VMap [("flagKey", VString "checkout-button"); ("enabled", VBool true)];
    VMap [("flagKey", VInt 7)];
    VString "not an object";
    VMap [("enabled", VBool false); ("flagKey", VString "holdout")] ].

(** A client constructor for the registry examples: the client is the pair
    of its key and its config. *)
Definition demo_construct (apiKey : string) (config : nat) : string * nat :=
  (apiKey, config).

Definition demo_registry : Client.Registry (string * nat) :=
  {| Client.clients := {[ "key-1" := ("key-1", 1) ]};
     Client.initMutex := false |}.

End Demo.

(** * Properties of the streaming sync client *)

Import StreamApi.

Section rekey_facts.

Lemma rekey_snoc (l : list Flag) (f : Flag) :
  rekey (l ++ [f]) = <[Key f := f]> (rekey l).
Proof. unfold rekey. by rewrite foldl_snoc. Qed.

Lemma rekey_dom (l : list Flag) :
  dom (rekey l) =@{gset string} list_to_set (Key <$> l).
Proof.
  induction l as [|f l IH] using rev_ind; [done|].
  rewrite rekey_snoc, dom_insert_L, fmap_app, list_to_set_app_L, IH.
  simpl. set_solver.
Qed.

Lemma rekey_lookup_Some (l : list Flag) (k : string) (f : Flag) :
  rekey l !! k = Some f → f ∈ l ∧ Key f = k.
Proof.
  induction l as [|g l IH] using rev_ind; [done|].
  rewrite rekey_snoc. destruct (decide (Key g = k)) as [<-|Hne].
  - rewrite lookup_insert_eq. intros [= <-]. set_solver.
  - rewrite lookup_insert_ne by done. intros Hl.
    destruct (IH Hl). set_solver.
Qed.

Lemma rekey_last_wins (l1 l2 : list Flag) (f : Flag) :
  Key f ∉ Key <$> l2 → rekey (l1 ++ f :: l2) !! Key f = Some f.
Proof.
  induction l2 as [|g l2 IH] using rev_ind; intros Hnot.
  - by rewrite rekey_snoc, lookup_insert_eq.
  - rewrite fmap_app in Hnot. simpl in Hnot.
    replace (l1 ++ f :: l2 ++ [g]) with ((l1 ++ f :: l2) ++ [g])
      by (by rewrite <- app_assoc).
    rewrite rekey_snoc, lookup_insert_ne by set_solver.
    apply IH. set_solver.
Qed.

Lemma rekey_size (l : list Flag) :
  size (rekey l) = length (remove_dups (Key <$> l)).
Proof.
  rewrite <- (size_dom (D := gset string)), rekey_dom.
  rewrite <- (size_list_to_set (C := gset string) (remove_dups (Key <$> l)))
    by apply NoDup_remove_dups.
  f_equal. apply set_eq. intros k.
  by rewrite !elem_of_list_to_set, elem_of_remove_dups.
Qed.

Lemma rekey_NoDup (l : list Flag) (f : Flag) :
  NoDup (Key <$> l) → f ∈ l → rekey l !! Key f = Some f.
Proof.
  intros Hnd Hin. apply list_elem_of_split in Hin as (l1 & l2 & ->).
  apply rekey_last_wins.
  rewrite fmap_app in Hnd. simpl in Hnd.
  apply NoDup_app in Hnd as (_ & _ & Hnd). by apply NoDup_cons in Hnd as [? _].
Qed.

(** On an array without nil pointers the loop over the pointers is the loop
    over the flags; an array with a nil pointer makes it panic. *)
Lemma rekeyPtrs_snoc (arr : list (option Flag)) (x : option Flag) :
  rekeyPtrs (arr ++ [x])
  = flags ←! rekeyPtrs arr;
    match x with
    | Some f => Done (<[Key f := f]> flags)
    | None => Panic nil_dereference
    end.
Proof. unfold rekeyPtrs. by rewrite foldl_snoc. Qed.

Lemma rekeyPtrs_cases (arr : list (option Flag)) :
  (∃ l, arr = Some <$> l ∧ rekeyPtrs arr = Done (rekey l)) ∨
  (None ∈ arr ∧ rekeyPtrs arr = Panic nil_dereference).
Proof.
  induction arr as [|x arr IH] using rev_ind.
  - left. by exists [].
  - rewrite rekeyPtrs_snoc. destruct IH as [(l & -> & ->)|[Hin ->]].
    + destruct x as [f|]; simpl.
      * left. exists (l ++ [f]). by rewrite fmap_app, rekey_snoc.
      * right. split; [|done]. set_solver.
    + right. split; [|done]. set_solver.
Qed.

Lemma rekeyPtrs_Some (l : list Flag) :
  rekeyPtrs (Some <$> l) = Done (rekey l).
Proof.
  destruct (rekeyPtrs_cases (Some <$> l)) as [(l' & Heq & ->)|[Hin _]].
  - by apply (inj (fmap Some)) in Heq as <-.
  - by apply list_elem_of_fmap in Hin as (? & ? & _).
Qed.

End rekey_facts.

Section parse_facts.
Context `{Library}.

(** The three ways [parseData] ends: the decoding error, the re-keyed map of
    an array of flag objects, or the panic on an array with a null
    element. *)
Lemma parseData_cases (data : list Byte.byte) :
  (∃ e, json_Unmarshal data = inl e ∧ parseData data = Done (inl e)) ∨
  (∃ l, json_Unmarshal data = inr (Some <$> l) ∧
        parseData data = Done (inr (rekey l))) ∨
  (∃ arr, json_Unmarshal data = inr arr ∧ None ∈ arr ∧
          parseData data = Panic nil_dereference).
Proof.
  unfold parseData. destruct (json_Unmarshal data) as [e|arr]; [eauto|].
  destruct (rekeyPtrs_cases arr) as [(l & -> & ->)|[Hin ->]]; simpl.
  - right. left. eauto.
  - right. right. eauto.
Qed.

Lemma parseData_enabled (data : list Byte.byte) :
  parseData data ≠ Disabled.
Proof.
  by destruct (parseData_cases data)
    as [(? & _ & ->)|[(? & _ & ->)|(? & _ & _ & ->)]].
Qed.

Lemma parseData_Panic (data : list Byte.byte) (msg : string) :
  parseData data = Panic msg ↔
  msg = nil_dereference ∧
  ∃ arr, json_Unmarshal data = inr arr ∧ None ∈ arr.
Proof.
  split.
  - destruct (parseData_cases data)
      as [(? & _ & ->)|[(? & _ & ->)|(arr & ? & ? & ->)]]; try done.
    intros [= <-]. eauto.
  - intros (-> & arr & Hdec & Hin).
    destruct (parseData_cases data)
      as [(? & Hd & _)|[(l & Hd & _)|(? & _ & _ & ->)]]; [congruence| |done].
    rewrite Hdec in Hd. injection Hd as ->.
    by apply list_elem_of_fmap in Hin as (? & ? & _).
Qed.

(** C2.  When the payload decodes to an array of flag objects, [parseData]
    returns a map whose keys are exactly the keys of the array, with one
    entry per distinct key; every entry is a flag of the array stored under
    its own key, the last flag carrying a key is the one found under it, and
    when the keys are pairwise distinct every flag of the array is found,
    unchanged, under its key. *)
Theorem parseData_roundtrip (data : list Byte.byte) (flagsArray : list Flag) :
  json_Unmarshal data = inr (Some <$> flagsArray) →
  ∃ flags : gmap string Flag,
    parseData data = Done (inr flags) ∧
    dom flags =@{gset string} list_to_set (Key <$> flagsArray) ∧
    size flags = length (remove_dups (Key <$> flagsArray)) ∧
    (∀ k f, flags !! k = Some f → f ∈ flagsArray ∧ Key f = k) ∧
    (∀ l1 f l2, flagsArray = l1 ++ f :: l2 → Key f ∉ Key <$> l2 →
                flags !! Key f = Some f) ∧
    (NoDup (Key <$> flagsArray) →
     ∀ f, f ∈ flagsArray → flags !! Key f = Some f).
Proof.
  intros Hdec. exists (rekey flagsArray). unfold parseData.
  rewrite Hdec, rekeyPtrs_Some. simpl.
  split_and!; [done|apply rekey_dom|apply rekey_size| | |].
  - apply rekey_lookup_Some.
  - intros l1 f l2 -> ?. by apply rekey_last_wins.
  - intros ? f ?. by apply rekey_NoDup.
Qed.

End parse_facts.

Lemma parseData_roundtrip_witness :
  ∃ flags : gmap string Flag,
    parseData (H := Demo.demo_Library) [Byte.x61; Byte.x62; Byte.x61]
      = Done (inr flags) ∧
    size flags = 2 ∧
    flags !! "a" = Some (Demo.demo_flag "a") ∧
    flags !! "b" = Some (Demo.demo_flag "b").
Proof.
  destruct (parseData_roundtrip (H := Demo.demo_Library)
              [Byte.x61; Byte.x62; Byte.x61]
              [Demo.demo_flag "a"; Demo.demo_flag "b"; Demo.demo_flag "a"]
              eq_refl)
    as (flags & Hp & _ & Hsize & _ & Hlast & _).
  exists flags. split; [exact Hp|]. split; [exact Hsize|]. split.
  - apply (Hlast [Demo.demo_flag "a"; Demo.demo_flag "b"]
                 (Demo.demo_flag "a") [] eq_refl).
    apply not_elem_of_nil.
  - apply (Hlast [Demo.demo_flag "a"] (Demo.demo_flag "b")
                 [Demo.demo_flag "a"] eq_refl).
    intros [Hab|Hnil]%elem_of_cons; [discriminate|].
    by apply not_elem_of_nil in Hnil.
Defined.

(** ** The scheduler model: an invariant of every reachable world *)

Section invariant.
Context `{Library}.

Lemma wf_start (a : flagConfigStreamApiV2) : wf (start a).
Proof. split; [intros i c Hc; by destruct i|done]. Qed.

Lemma get_conn_Done (i : nat) (w : World) (c : Conn) :
  get_conn i w = Done c ↔ conns w !! i = Some c.
Proof. unfold get_conn. destruct (conns w !! i); naive_solver. Qed.

Lemma closeStream_Done (c c' : Conn) :
  closeStream c = Done c' →
  msgChClosed c = false ∧ errChClosed c = false ∧
  released c' = true ∧ stopChan c' = stopChan c ∧ loop c' = loop c ∧
  notified c' = notified c ∧ delivered c' = delivered c.
Proof.
  unfold closeStream, close_chan, released.
  destruct (msgChClosed c) eqn:?, (errChClosed c) eqn:?; simpl; try done.
  by intros [= <-].
Qed.

(** The invariant survives a change of one connection and of the channel the
    client holds, if the changed connection fits and no other connection was
    or becomes the active one unexpectedly. *)
Lemma wf_update (w : World) (i : nat) (c' : Conn) (ch : option nat) :
  wf w → i < length (conns w) →
  conn_ok (bool_decide (ch = Some i)) c' →
  (∀ j, j ≠ i → bool_decide (ch = Some j) =
                bool_decide (stopCh (api w) = Some j)) →
  wf (set_api (set_stopCh ch (api w)) (set_conn i c' w)).
Proof.
  intros [Hc Hs] Hi Hok Hoth. split; simpl.
  - intros j d [(-> & -> & _)|[Hne Hj]]%list_lookup_insert_Some; [done|].
    rewrite Hoth by done. by apply Hc.
  - intros j ->. rewrite length_insert.
    destruct (decide (j = i)) as [->|Hne]; [done|].
    apply Hs. specialize (Hoth j Hne).
    rewrite bool_decide_eq_true_2 in Hoth by done.
    symmetry in Hoth. by apply bool_decide_eq_true in Hoth.
Qed.

Lemma set_stopCh_id (a : flagConfigStreamApiV2) :
  set_stopCh (stopCh a) a = a.
Proof. by destruct a. Qed.

(** A change of one connection that leaves the client's channel alone. *)
Lemma wf_set_conn (w : World) (i : nat) (c' : Conn) :
  wf w → i < length (conns w) →
  conn_ok (bool_decide (stopCh (api w) = Some i)) c' →
  wf (set_conn i c' w).
Proof.
  intros Hw Hi Hok.
  pose proof (wf_update w i c' (stopCh (api w)) Hw Hi Hok (λ _ _, eq_refl))
    as Hu.
  by rewrite set_stopCh_id in Hu.
Qed.

End invariant.

Section steps.
Context `{Library}.

Lemma conn_ok_active (c : Conn) :
  conn_ok true c →
  (loop c = Running ∨ ∃ e, loop c = Handling e) ∧
  stopChan c = Some false ∧ cancelled c = false ∧
  msgChClosed c = false ∧ errChClosed c = false ∧ notified c = [].
Proof. unfold conn_ok. destruct (loop c); naive_solver. Qed.

Lemma conn_ok_running (active : bool) (c : Conn) :
  conn_ok active c → (loop c = Running ∨ ∃ e, loop c = Handling e) →
  stopChan c = Some (negb active) ∧ cancelled c = false ∧
  msgChClosed c = false ∧ errChClosed c = false ∧ notified c = [].
Proof. unfold conn_ok. destruct (loop c); naive_solver. Qed.

Lemma wf_lookup (w : World) (i : nat) (c : Conn) :
  wf w → conns w !! i = Some c →
  conn_ok (bool_decide (stopCh (api w) = Some i)) c.
Proof. intros [Hc _]. apply Hc. Qed.

Lemma wf_active (w : World) (i : nat) :
  wf w → stopCh (api w) = Some i →
  ∃ c, conns w !! i = Some c ∧ conn_ok true c.
Proof.
  intros Hw Hs. destruct Hw as [Hc Hl].
  destruct (lookup_lt_is_Some_2 (conns w) i (Hl i Hs)) as [c Hi].
  exists c. split; [done|]. specialize (Hc i c Hi).
  by rewrite bool_decide_eq_true_2 in Hc.
Qed.

(** From a well-formed world [closeInternal] returns: the client holds no
    stop channel afterwards, and at most the stop channel it held changed. *)
Lemma closeInternal_wf (w : World) :
  wf w →
  ∃ w1, closeInternal w = Done w1 ∧ wf w1 ∧
        api w1 = set_stopCh None (api w) ∧
        length (conns w1) = length (conns w) ∧
        loop <$> conns w1 = loop <$> conns w ∧
        released <$> conns w1 = released <$> conns w ∧
        initUpdates w1 = initUpdates w.
Proof.
  intros Hw. unfold closeInternal. destruct (stopCh (api w)) as [i|] eqn:Hs.
  - destruct (wf_active w i Hw Hs) as (c & Hi & Hok).
    apply conn_ok_active in Hok as (Hl & Hst & Hca & Hm & He & Hn).
    apply get_conn_Done in Hi as Hg. rewrite Hg. simpl.
    unfold close_stop. rewrite Hst. simpl.
    eexists. split; [done|]. apply lookup_lt_Some in Hi as Hlt.
    split_and!; simpl; try done.
    + apply wf_update; [done|done| |].
      * rewrite bool_decide_eq_false_2 by done. unfold conn_ok. simpl.
        destruct Hl as [->|[e ->]]; by rewrite ?Hca, ?Hm, ?He, ?Hn.
      * intros j Hj. rewrite Hs, !bool_decide_eq_false_2; naive_solver.
    + by rewrite length_insert.
    + rewrite list_fmap_insert. simpl. apply list_insert_id.
      by rewrite list_lookup_fmap, Hi.
    + rewrite list_fmap_insert. apply list_insert_id.
      rewrite list_lookup_fmap, Hi. simpl. unfold released. simpl. done.
  - exists w. split_and!; try done.
    by rewrite <- Hs, set_stopCh_id.
Qed.

Lemma wf_snoc (w1 w' : World) (c : Conn) :
  wf w1 → stopCh (api w1) = None → conns w' = conns w1 ++ [c] →
  (stopCh (api w') = None ∧ conn_ok false c) ∨
  (stopCh (api w') = Some (length (conns w1)) ∧ conn_ok true c) →
  wf w'.
Proof.
  intros [Hc Hl] Hs Hcs Hnew. split.
  - intros i d. rewrite Hcs.
    intros [[Hlt Hi]|[-> ->]]%lookup_snoc_Some.
    + specialize (Hc i d Hi). rewrite Hs in Hc.
      rewrite bool_decide_eq_false_2 in Hc by done.
      rewrite bool_decide_eq_false_2; [done|].
      destruct Hnew as [[-> _]|[-> _]]; [done|]. intros [= <-]. lia.
    + destruct Hnew as [[-> ?]|[-> ?]].
      * by rewrite bool_decide_eq_false_2.
      * by rewrite bool_decide_eq_true_2.
  - intros i Hi. rewrite Hcs, length_app. simpl.
    destruct Hnew as [[Hn _]|[Hn _]]; rewrite Hn in Hi; [done|].
    injection Hi as <-. lia.
Qed.

(** A failing exit of [Connect]: the new connection is closed again. *)
Lemma connect_fail_spec (r : Race) (a : flagConfigStreamApiV2)
    (endpoint : URL) (err : error) (w1 : World) :
  wf w1 → stopCh (api w1) = None →
  ∃ c w', connect_fail r (NewSseStream a endpoint) err w1
            = Done (Some err, Some r, w') ∧
          wf w' ∧ api w' = api w1 ∧ conns w' = conns w1 ++ [c] ∧
          initUpdates w' = initUpdates w1 ∧
          loop c = NoLoop ∧ released c = true ∧ stopChan c = None.
Proof.
  intros Hw Hs. unfold connect_fail. simpl.
  eexists _, _. split; [done|]. split_and!; simpl; try done.
  eapply wf_snoc; [done|done|done|]. left. by split.
Qed.

(** What [Connect] does from a well-formed world, case by case. *)
Lemma Connect_cases (r : Race) (w : World) :
  wf w →
  ∃ w1, closeInternal w = Done w1 ∧
    match url_Parse (ServerURL (api w)) with
    | inl e => Connect r w = Done (Some e, None, w1) ∧ wf w1
    | inr _ =>
        (∃ data, r = FirstMsg data ∧
                 parseData data = Panic nil_dereference ∧
                 Connect r w = Panic nil_dereference) ∨
        ∃ err c w', Connect r w = Done (err, Some r, w') ∧ wf w' ∧
          conns w' = conns w1 ++ [c] ∧
          if accepted (api w) r
          then err = None ∧ loop c = Running ∧ released c = false ∧
               stopChan c = Some false ∧ notified c = [] ∧
               stopCh (api w') = Some (length (conns w))
          else is_Some err ∧ loop c = NoLoop ∧ released c = true ∧
               stopChan c = None ∧ stopCh (api w') = None
    end.
Proof.
  intros Hw.
  destruct (closeInternal_wf w Hw)
    as (w1 & Hci & Hw1 & Hapi & Hlen & _ & _ & _).
  exists w1. split; [done|]. unfold Connect. rewrite Hci. simpl.
  assert (stopCh (api w1) = None) as Hs1 by by rewrite Hapi.
  assert (ServerURL (api w1) = ServerURL (api w)) as -> by by rewrite Hapi.
  assert (initCallback (api w1) = initCallback (api w)) as Hcb
    by by rewrite Hapi.
  destruct (url_Parse (ServerURL (api w))) as [e|parsed]; [done|].
  set (endpoint := {| Raw := Raw parsed; Path := _ |}).
  destruct r as [data|e|]; simpl.
  - destruct (parseData data) as [[e|flags]|msg|] eqn:Hp; simpl.
    + right.
      destruct (connect_fail_spec (FirstMsg data) (api w1) endpoint
                  ("stream corrupt data, cause: " +:+ e) w1 Hw1 Hs1)
        as (c & w' & -> & ? & Ha & ? & ? & ? & ? & ?).
      exists (Some ("stream corrupt data, cause: " +:+ e)), c, w'.
      rewrite Ha. naive_solver.
    + right. rewrite Hcb.
      destruct (from_option (λ f, f flags) None (initCallback (api w)))
        as [e|] eqn:Hf.
      * match goal with |- context [connect_fail _ _ _ ?w2] =>
          destruct (connect_fail_spec (FirstMsg data) (api w1) endpoint e w2)
            as (c & w' & -> & ? & Ha & ? & ? & ? & ? & ?); [done|done|]
        end.
        exists (Some e), c, w'. rewrite Ha. simpl. naive_solver.
      * eexists None, _, _. split; [done|]. simpl. split_and!; try done.
        -- eapply wf_snoc; [exact Hw1|done|done|]. right. simpl.
           split; [done|]. by unfold conn_ok.
        -- by rewrite Hlen.
    + left. pose proof Hp as Hp'. apply parseData_Panic in Hp' as [-> _].
      by exists data.
    + by apply parseData_enabled in Hp.
  - right.
    destruct (connect_fail_spec (StreamErr e) (api w1) endpoint e w1 Hw1 Hs1)
      as (c & w' & -> & ? & Ha & ? & ? & ? & ? & ?).
    exists (Some e), c, w'. rewrite Ha. naive_solver.
  - right.
    destruct (connect_fail_spec Timeout (api w1) endpoint
                "stream connect timeout" w1 Hw1 Hs1)
      as (c & w' & -> & ? & Ha & ? & ? & ? & ? & ?).
    exists (Some "stream connect timeout"), c, w'. rewrite Ha. naive_solver.
Qed.

(** [closeAllAndNotify] on the connection the client still holds: it
    returns, the callback (if registered) has been called once with the
    error, the client holds no stop channel, the transport is released. *)
Lemma closeAllAndNotify_active (w : World) (i : nat) (c : Conn) (e : error) :
  wf w → conns w !! i = Some c → loop c = Handling e →
  stopCh (api w) = Some i →
  ∃ w' c', closeAllAndNotify i e w = Done w' ∧ wf w' ∧
           conns w' !! i = Some c' ∧ stopCh (api w') = None ∧
           loop c' = Exited ∧ released c' = true ∧
           notified c' = (if OnError (api w) then [e] else []).
Proof.
  intros Hw Hi Hl Hs. pose proof (wf_lookup w i c Hw Hi) as Hok.
  rewrite bool_decide_eq_true_2 in Hok by done.
  apply conn_ok_active in Hok as (_ & Hst & Hca & Hm & He & Hn).
  apply lookup_lt_Some in Hi as Hlt.
  unfold closeAllAndNotify. apply get_conn_Done in Hi as ->. simpl.
  unfold closeStream. rewrite Hm, He. simpl.
  unfold close_stop. simpl. rewrite Hst. simpl.
  rewrite decide_True by done. simpl.
  eexists _, _. split; [done|]. split_and!; simpl.
  - apply wf_update; [done|done| |].
    + rewrite bool_decide_eq_false_2 by done. unfold conn_ok. simpl.
      split_and!; try done. rewrite Hn. destruct (OnError (api w)); simpl; lia.
    + intros j Hj. rewrite Hs, !bool_decide_eq_false_2; naive_solver.
  - by apply list_lookup_insert_eq.
  - done.
  - done.
  - done.
  - rewrite Hn. by destruct (OnError (api w)).
Qed.

(** [closeAllAndNotify] on a connection whose stop channel the client no
    longer holds: [close(stopCh)] hits a closed channel. *)
Lemma closeAllAndNotify_stale (w : World) (i : nat) (c : Conn) (e : error) :
  wf w → conns w !! i = Some c → loop c = Handling e →
  stopCh (api w) ≠ Some i →
  closeAllAndNotify i e w = Panic "close of closed channel".
Proof.
  intros Hw Hi Hl Hs. pose proof (wf_lookup w i c Hw Hi) as Hok.
  rewrite bool_decide_eq_false_2 in Hok by done.
  apply conn_ok_running in Hok as (Hst & Hca & Hm & He & Hn); [|eauto].
  unfold closeAllAndNotify. apply get_conn_Done in Hi as ->. simpl.
  unfold closeStream. rewrite Hm, He. simpl.
  unfold close_stop. simpl. by rewrite Hst.
Qed.

(** The goroutine events start by fetching their connection; an event on a
    connection that does not exist is not enabled. *)
Ltac take_conn i w c Hg :=
  destruct (get_conn i w) as [c| |] eqn:Hg; simpl; [|done..];
  apply get_conn_Done in Hg.

(** Every step keeps the invariant. *)
Lemma step_wf (ev : Event) (w w' : World) :
  wf w → step ev w = Done w' → wf w'.
Proof.
  intros Hw. destruct ev as [r| |i|i data|i e|i]; simpl.
  - destruct (Connect_cases r w Hw) as (w1 & _ & Hc).
    destruct (url_Parse (ServerURL (api w))).
    + destruct Hc as [-> ?]. simpl. by intros [= <-].
    + destruct Hc as [(data & _ & _ & ->)|(err & c & w2 & -> & ? & _)];
        simpl; [done|]. by intros [= <-].
  - unfold Close. destruct (closeInternal_wf w Hw) as (w1 & -> & ? & _).
    simpl. by intros [= <-].
  - take_conn i w c Hg.
    destruct (is_running c) eqn:Hr; simpl; [|done].
    case_bool_decide as Hst; simpl; [|done].
    destruct (closeStream c) as [c'| |] eqn:Hcs; simpl; [|done..].
    intros [= <-].
    apply closeStream_Done in Hcs as (_ & _ & Hrel & Hst' & _ & Hn & _).
    pose proof (wf_lookup w i c Hw Hg) as Hok.
    unfold is_running in Hr. destruct (loop c) eqn:Hl; try done.
    apply conn_ok_running in Hok as (Hst2 & _ & _ & _ & Hn2); [|eauto].
    rewrite Hst in Hst2. injection Hst2 as Hact.
    apply wf_set_conn; [done|by eapply lookup_lt_Some|].
    unfold conn_ok. simpl. rewrite Hst', Hst, Hn, Hn2. simpl.
    split_and!; try done; [|lia].
    by destruct (bool_decide (stopCh (api w) = Some i)).
  - take_conn i w c Hg.
    destruct (is_running c) eqn:Hr; simpl; [|done].
    pose proof (wf_lookup w i c Hw Hg) as Hok.
    unfold is_running in Hr. destruct (loop c) eqn:Hl; try done.
    destruct (parseData data) as [[?|?]| |]; simpl; [| |done..];
      intros [= <-];
      (apply wf_set_conn; [done|by eapply lookup_lt_Some|]);
      unfold conn_ok in *; simpl; by rewrite ?Hl in *.
  - take_conn i w c Hg.
    destruct (is_running c) eqn:Hr; simpl; [|done].
    pose proof (wf_lookup w i c Hw Hg) as Hok.
    unfold is_running in Hr. destruct (loop c) eqn:Hl; try done.
    intros [= <-]. apply wf_set_conn; [done|by eapply lookup_lt_Some|].
    unfold conn_ok in *; simpl; by rewrite ?Hl in *.
  - take_conn i w c Hg.
    destruct (loop c) as [| |e|] eqn:Hl; try done.
    destruct (decide (stopCh (api w) = Some i)) as [Hs|Hs].
    + destruct (closeAllAndNotify_active w i c e Hw Hg Hl Hs)
        as (w2 & c2 & -> & ? & _). by intros [= <-].
    + by rewrite (closeAllAndNotify_stale w i c e Hw Hg Hl Hs).
Qed.

Lemma run_wf (evs : list Event) (w w' : World) :
  wf w → run evs w = Done w' → wf w'.
Proof.
  revert w. induction evs as [|ev evs IH]; intros w Hw; simpl.
  - by intros [= <-].
  - destruct (step ev w) as [w1| |] eqn:Hst; simpl; [|done..].
    apply IH. by eapply step_wf.
Qed.

Lemma reachable_wf (w : World) : reachable w → wf w.
Proof. intros (a & evs & Hr). eapply run_wf; [apply wf_start|done]. Qed.

Lemma run_app (evs1 evs2 : list Event) (w : World) :
  run (evs1 ++ evs2) w = w' ←! run evs1 w; run evs2 w'.
Proof.
  revert w. induction evs1 as [|ev evs1 IH]; intros w; simpl; [done|].
  destruct (step ev w); simpl; [apply IH|done..].
Qed.

End steps.

(** ** Close *)

Section close_facts.
Context `{Library}.

(** Sequential calls of [Close]: the first returns nil and leaves the client
    without a stop channel; every further call returns nil and changes
    nothing. *)
Lemma Close_idempotent (w : World) :
  reachable w →
  ∃ w', Close w = Done (None, w') ∧ stopCh (api w') = None ∧
        Close w' = Done (None, w').
Proof.
  intros Hr%reachable_wf. unfold Close.
  destruct (closeInternal_wf w Hr) as (w' & -> & _ & Ha & _).
  exists w'. simpl. split; [done|].
  assert (stopCh (api w') = None) as Hs by by rewrite Ha.
  split; [done|]. unfold closeInternal. by rewrite Hs.
Qed.

(** X2.  After [Close], the goroutine of the connection that was held sees its
    stop channel closed, releases the transport and returns. *)
Lemma Close_then_stop_releases (w : World) (i : nat) (c : Conn) :
  reachable w → stopCh (api w) = Some i → conns w !! i = Some c →
  loop c = Running →
  ∃ w' c', run [CallClose; LoopStop i] w = Done w' ∧
           conns w' !! i = Some c' ∧ loop c' = Exited ∧
           released c' = true ∧ stopChan c' = Some true ∧
           stopCh (api w') = None.
Proof.
  intros Hr%reachable_wf Hs Hi Hl.
  pose proof (wf_lookup w i c Hr Hi) as Hok.
  rewrite bool_decide_eq_true_2 in Hok by done.
  apply conn_ok_active in Hok as (_ & Hst & Hca & Hm & He & Hn).
  apply lookup_lt_Some in Hi as Hlt.
  simpl. unfold Close, closeInternal. rewrite Hs.
  apply get_conn_Done in Hi as Hg. rewrite Hg. simpl.
  unfold close_stop. rewrite Hst. simpl.
  unfold get_conn. simpl. rewrite list_lookup_insert_eq by done. simpl.
  unfold is_running. simpl. rewrite Hl. simpl.
  unfold closeStream. simpl. rewrite Hm, He. simpl.
  eexists _, _. split; [done|]. simpl.
  rewrite list_lookup_insert_eq by by rewrite length_insert.
  by split_and!.
Qed.

(** X3.  The race: the goroutine has taken an error (or a corrupt message) and
    is about to enter [closeAllAndNotify] when a caller runs [Close] (or
    [Connect], which starts with the same [closeInternal]).  The handler
    then closes the stop channel a second time. *)
Lemma stale_handler_panics (w : World) (i : nat) (c : Conn) (e : error) :
  reachable w → stopCh (api w) = Some i → conns w !! i = Some c →
  loop c = Handling e →
  run [CallClose; LoopNotify i] w = Panic "close of closed channel".
Proof.
  intros Hr Hs Hi Hl. pose proof (reachable_wf w Hr) as Hw.
  destruct (Close_idempotent w Hr) as (w' & Hc & Hs' & _).
  assert (run [CallClose] w = Done w') as Hrun by (simpl; by rewrite Hc).
  pose proof (run_wf _ _ _ Hw Hrun) as Hw'.
  change [CallClose; LoopNotify i] with ([CallClose] ++ [LoopNotify i]).
  rewrite run_app, Hrun. simpl.
  unfold Close in Hc. destruct (closeInternal_wf w Hw)
    as (w1 & Hci & _ & _ & _ & Hloops & _).
  rewrite Hci in Hc. simpl in Hc. injection Hc as ->.
  assert (∃ c', conns w' !! i = Some c' ∧ loop c' = Handling e)
    as (c' & Hi' & Hl').
  { assert ((loop <$> conns w') !! i = Some (Handling e)) as Hlk
      by by rewrite Hloops, list_lookup_fmap, Hi, <- Hl.
    rewrite list_lookup_fmap in Hlk.
    destruct (conns w' !! i) as [c'|]; [|done]. exists c'. naive_solver. }
  apply get_conn_Done in Hi' as Hg. rewrite Hg. simpl. rewrite Hl'.
  rewrite (closeAllAndNotify_stale w' i c' e); [done..|]. by rewrite Hs'.
Qed.

End close_facts.

(** C1.  A schedule on which [Close] is not safe: [Connect] succeeds, the
    stream reports an error and the goroutine takes it, [Close] runs before
    the goroutine gets the mutex, and [closeAllAndNotify] then closes the
    stop channel that [Close] has already closed: the process panics. *)
Theorem Close_during_error_handling_panics :
  run (H := Demo.demo_Library)
      [CallConnect (FirstMsg Demo.demo_payload); LoopErr 0 "EOF";
       CallClose; LoopNotify 0]
      (start Demo.demo_api)
  = Panic "close of closed channel".
Proof. vm_compute. reflexivity. Qed.

(** The same defect when a second [Connect] runs instead of [Close]. *)
Example Connect_during_error_handling_panics :
  run (H := Demo.demo_Library)
      [CallConnect (FirstMsg Demo.demo_payload); LoopErr 0 "EOF";
       CallConnect (FirstMsg Demo.demo_payload); LoopNotify 0]
      (start Demo.demo_api)
  = Panic "close of closed channel".
Proof. vm_compute. reflexivity. Qed.

(** Without the race the same calls are fine. *)
Example Close_after_error_handled :
  ∃ w, run (H := Demo.demo_Library)
           [CallConnect (FirstMsg Demo.demo_payload); LoopErr 0 "EOF";
            LoopNotify 0; CallClose; CallClose]
           (start Demo.demo_api) = Done w ∧
       stopCh (api w) = None ∧
       (released <$> conns w) = [true] ∧ (notified <$> conns w) = [["EOF"]].
Proof. eexists. split; [vm_compute; reflexivity|]. by vm_compute. Qed.

Example demo_connected_reachable :
  run (H := Demo.demo_Library) [CallConnect (FirstMsg Demo.demo_payload)]
      (start Demo.demo_api) = Done Demo.demo_connected.
Proof. reflexivity. Qed.

(** ** Connect *)

Section connect_facts.
Context `{Library}.

(** A server URL that does not parse: [Connect] returns the parse error
    before any stream is made; the [select] is never reached. *)
Lemma Connect_bad_url (w : World) (r : Race) (e : error) :
  reachable w → url_Parse (ServerURL (api w)) = inl e →
  ∃ w', Connect r w = Done (Some e, None, w') ∧
        loop <$> conns w' = loop <$> conns w ∧
        released <$> conns w' = released <$> conns w.
Proof.
  intros Hr%reachable_wf Hu.
  destruct (closeInternal_wf w Hr) as (w0 & Hci & _ & _ & _ & Hl & Hrel & _).
  destruct (Connect_cases r w Hr) as (w1 & Hci' & Hc).
  rewrite Hci in Hci'. injection Hci' as <-. rewrite Hu in Hc.
  destruct Hc as [-> _]. eauto.
Qed.

(** A first message whose decoded array has a null element: [parseData]
    panics on the nil pointer, and [Connect] with it, before any callback is
    called and without [closeStream]. *)
Lemma Connect_null_element_panics (w : World) (data : list Byte.byte)
    (flagsArray : list (option Flag)) (parsed : URL) :
  reachable w → url_Parse (ServerURL (api w)) = inr parsed →
  json_Unmarshal data = inr flagsArray → None ∈ flagsArray →
  Connect (FirstMsg data) w = Panic nil_dereference.
Proof.
  intros Hr%reachable_wf Hu Hdec Hin.
  assert (parseData data = Panic nil_dereference) as Hp
    by (apply parseData_Panic; eauto).
  destruct (closeInternal_wf w Hr) as (w0 & Hci & _ & Hapi & _).
  unfold Connect. rewrite Hci. simpl.
  assert (ServerURL (api w0) = ServerURL (api w)) as -> by by rewrite Hapi.
  rewrite Hu. simpl. by rewrite Hp.
Qed.

Lemma race_no_null_returns (r : Race) (data : list Byte.byte) :
  race_no_null r → r = FirstMsg data → parseData data ≠ Panic nil_dereference.
Proof.
  intros Hnn -> (_ & arr & Hdec & Hin)%parseData_Panic.
  by apply (Hnn arr Hdec).
Qed.

(** C3 (amended).  When [url.Parse] rejects the server URL, [Connect] returns
    that error before the [select]: no case is taken, no transport is opened,
    no goroutine is started.  Otherwise, for a first message (if that is
    what the race produces) without a null element, [Connect] opens one
    transport and takes the one [select] case the race produced, with the
    effects of that case alone: the initial callback gets the flags of a
    first message that parses and nothing else.  If that case is a first
    message that parses and that the initial callback accepts, [Connect]
    returns nil, the transport stays open and its goroutine runs.  In every
    other case (transport error, timeout, parse failure, callback error) it
    returns an error, the transport it opened is released, no goroutine is
    started for it nor for any other connection, and the client holds no
    stop channel. *)
Theorem Connect_race_outcomes (w : World) (r : Race) :
  reachable w → race_no_null r →
  match url_Parse (ServerURL (api w)) with
  | inl e =>
      ∃ w', Connect r w = Done (Some e, None, w') ∧
            length (conns w') = length (conns w) ∧
            loop <$> conns w' = loop <$> conns w ∧
            released <$> conns w' = released <$> conns w ∧
            initUpdates w' = initUpdates w ∧
            stopCh (api w') = None
  | inr _ =>
      ∃ err c w',
        Connect r w = Done (err, Some r, w') ∧
        conns w' !! length (conns w) = Some c ∧
        length (conns w') = S (length (conns w)) ∧
        loop <$> conns w' = (loop <$> conns w) ++ [loop c] ∧
        initUpdates w' = initUpdates w ++ firstFlags (api w) r ∧
        if accepted (api w) r
        then err = None ∧ loop c = Running ∧ released c = false ∧
             stopCh (api w') = Some (length (conns w))
        else (∃ e, err = Some e) ∧ loop c = NoLoop ∧ released c = true ∧
             stopCh (api w') = None
  end.
Proof.
  intros Hr%reachable_wf Hnn.
  destruct (closeInternal_wf w Hr)
    as (w0 & Hci & _ & Hapi & Hlen & Hloops & Hrel & Hinit).
  destruct (Connect_cases r w Hr) as (w1 & Hci' & Hc).
  rewrite Hci in Hci'. injection Hci' as <-.
  destruct (url_Parse (ServerURL (api w))) as [e|parsed] eqn:Hu.
  { destruct Hc as [-> _]. exists w0. split_and!; try done.
    by rewrite Hapi. }
  destruct Hc as [(data & Hrd & Hp & _)|(err & c & w' & Hc & _ & Hcs & Hres)].
  { by destruct (race_no_null_returns r data Hnn Hrd). }
  exists err, c, w'. split; [done|]. rewrite Hcs. split_and!.
  - rewrite <- Hlen. by apply list_lookup_middle.
  - rewrite length_app, Hlen. simpl. lia.
  - by rewrite fmap_app, Hloops.
  - revert Hc. unfold Connect. rewrite Hci. simpl.
    assert (ServerURL (api w0) = ServerURL (api w)) as ->
      by by rewrite Hapi.
    assert (initCallback (api w0) = initCallback (api w)) as ->
      by by rewrite Hapi.
    rewrite Hu. unfold firstFlags, connect_fail, closeStream.
    destruct r as [data|e|]; simpl.
    + destruct (parseData data) as [[e|flags]| |]; simpl; try done.
      * intros [= _ <-]. simpl. by rewrite Hinit, app_nil_r.
      * destruct (initCallback (api w)) as [cb|]; simpl.
        -- destruct (cb flags); intros [= _ <-]; simpl; by rewrite Hinit.
        -- intros [= _ <-]. simpl. by rewrite Hinit.
    + intros [= _ <-]. simpl. by rewrite Hinit, app_nil_r.
    + intros [= _ <-]. simpl. by rewrite Hinit, app_nil_r.
  - destruct (accepted (api w) r); [naive_solver|].
    destruct Hres as ([e ->] & ?). naive_solver.
Qed.

End connect_facts.

(** C3, the claim as first stated, refuted: with a control character in the
    server URL, [Connect] returns the parse error without reaching the
    [select]; none of the three raced outcomes is taken, whatever the
    stream would have produced. *)
Lemma Connect_bad_url_takes_no_outcome :
  (∀ r, Connect (H := Demo.demo_Library) r (start Demo.bad_url_api)
        = Done (Some ("parse " +:+ Demo.dquote +:+ "\x7f" +:+ Demo.dquote +:+
                      ": net/url: invalid control character in URL"),
                None, start Demo.bad_url_api)) ∧
  ¬ (∀ r, ∃ err taken w',
       Connect (H := Demo.demo_Library) r (start Demo.bad_url_api)
       = Done (err, Some taken, w')).
Proof.
  assert (∀ r, Connect (H := Demo.demo_Library) r (start Demo.bad_url_api)
        = Done (Some ("parse " +:+ Demo.dquote +:+ "\x7f" +:+ Demo.dquote +:+
                      ": net/url: invalid control character in URL"),
                None, start Demo.bad_url_api)) as Hall by (by intros []).
  split; [done|]. intros Hex. destruct (Hex Timeout) as (err & t & w' & Hc).
  by rewrite Hall in Hc.
Qed.

Lemma Connect_race_outcomes_witness :
  ∃ err c w',
    Connect (H := Demo.demo_Library) (FirstMsg []) Demo.demo_connected
      = Done (err, Some (FirstMsg []), w') ∧
    conns w' !! 1 = Some c ∧
    length (conns w') = 2 ∧
    loop <$> conns w' = [Running; loop c] ∧
    initUpdates w' = initUpdates Demo.demo_connected ++ [] ∧
    (∃ e, err = Some e) ∧ loop c = NoLoop ∧ released c = true ∧
    stopCh (api w') = None.
Proof.
  apply (Connect_race_outcomes (H := Demo.demo_Library) Demo.demo_connected
           (FirstMsg [])).
  - exists Demo.demo_api, [CallConnect (FirstMsg Demo.demo_payload)].
    reflexivity.
  - intros arr Hdec. discriminate Hdec.
Defined.

(** A first message with a null element, the case the hypothesis of the
    theorem sets apart: [Connect] does not return. *)
Example Connect_null_first_message :
  Connect (H := Demo.demo_Library) (FirstMsg [Byte.x61; Byte.x00])
    (start Demo.demo_api)
  = Panic nil_dereference.
Proof. reflexivity. Qed.

(** ** The error callback *)

Section onerror_facts.
Context `{Library}.

(** [closeInternal] leaves alone every connection but the one whose stop
    channel the client holds. *)
Lemma closeInternal_frame (w w1 : World) (i : nat) :
  closeInternal w = Done w1 → stopCh (api w) ≠ Some i →
  conns w1 !! i = conns w !! i.
Proof.
  unfold closeInternal. destruct (stopCh (api w)) as [j|].
  - destruct (get_conn j w); simpl; [|done..].
    destruct (close_stop _); simpl; [|done..].
    intros [= <-] Hne. simpl. apply list_lookup_insert_ne. naive_solver.
  - by intros [= <-].
Qed.

(** A connection whose goroutine has returned never changes again. *)
Lemma exited_frozen_step (ev : Event) (w w' : World) (i : nat) (c : Conn) :
  wf w → step ev w = Done w' → conns w !! i = Some c → loop c = Exited →
  conns w' !! i = Some c.
Proof.
  intros Hw Hst Hi Hl.
  assert (stopCh (api w) ≠ Some i) as Hna.
  { intros Hs. destruct (wf_active w i Hw Hs) as (c0 & Hi0 & Hok).
    rewrite Hi in Hi0. injection Hi0 as <-.
    apply conn_ok_active in Hok as ([?|[? ?]] & _); congruence. }
  assert (∀ j c0 c1, conns w !! j = Some c0 → loop c0 ≠ Exited →
            <[j := c1]> (conns w) !! i = Some c) as Hins.
  { intros j c0 c1 Hj Hne. rewrite list_lookup_insert_ne; [done|].
    intros ->. congruence. }
  destruct ev as [r| |j|j data|j e|j]; simpl in Hst.
  - destruct (Connect_cases r w Hw) as (w1 & Hci & Hc).
    pose proof (closeInternal_frame w w1 i Hci Hna) as Hfr.
    destruct (url_Parse (ServerURL (api w))).
    + destruct Hc as [Hc _]. rewrite Hc in Hst. injection Hst as <-.
      by rewrite Hfr.
    + destruct Hc as [(? & _ & _ & Hc)|(err & c0 & w2 & Hc & _ & Hcs & _)];
        rewrite Hc in Hst; [done|].
      injection Hst as <-. rewrite Hcs.
      rewrite lookup_app_l; [by rewrite Hfr|].
      apply lookup_lt_is_Some. rewrite Hfr. eauto.
  - unfold Close in Hst.
    destruct (closeInternal w) as [w1| |] eqn:Hci; simpl in Hst; [|done..].
    injection Hst as <-. by rewrite (closeInternal_frame w w1 i Hci Hna).
  - destruct (get_conn j w) as [c0| |] eqn:Hg; simpl in Hst; try done.
    apply get_conn_Done in Hg.
    destruct (is_running c0) eqn:Hrun; simpl in Hst; [|done].
    destruct (bool_decide _); simpl in Hst; [|done].
    destruct (closeStream c0); simpl in Hst; [|done..].
    injection Hst as <-. simpl. eapply Hins; [done|].
    unfold is_running in Hrun. by destruct (loop c0).
  - destruct (get_conn j w) as [c0| |] eqn:Hg; simpl in Hst; try done.
    apply get_conn_Done in Hg.
    destruct (is_running c0) eqn:Hrun; simpl in Hst; [|done].
    assert (loop c0 ≠ Exited)
      by (unfold is_running in Hrun; by destruct (loop c0)).
    destruct (parseData data) as [[?|?]| |]; simpl in Hst; [| |done..];
      injection Hst as <-; simpl; by eapply Hins.
  - destruct (get_conn j w) as [c0| |] eqn:Hg; simpl in Hst; try done.
    apply get_conn_Done in Hg.
    destruct (is_running c0) eqn:Hrun; simpl in Hst; [|done].
    injection Hst as <-. simpl. eapply Hins; [done|].
    unfold is_running in Hrun. by destruct (loop c0).
  - destruct (get_conn j w) as [c0| |] eqn:Hg; simpl in Hst; try done.
    apply get_conn_Done in Hg as Hj.
    destruct (loop c0) as [| |e|] eqn:Hl0; try done.
    unfold closeAllAndNotify in Hst. rewrite Hg in Hst. simpl in Hst.
    destruct (closeStream c0); simpl in Hst; [|done..].
    destruct (close_stop _); simpl in Hst; [|done..].
    injection Hst as <-. simpl. eapply Hins; [done|congruence].
Qed.

Lemma exited_frozen (evs : list Event) (w w' : World) (i : nat) (c : Conn) :
  wf w → run evs w = Done w' → conns w !! i = Some c → loop c = Exited →
  conns w' !! i = Some c.
Proof.
  revert w. induction evs as [|ev evs IH]; intros w Hw; simpl.
  - by intros [= <-].
  - destruct (step ev w) as [w1| |] eqn:Hst; simpl; [|done..].
    intros Hrun Hi Hl. apply (IH w1); [by eapply step_wf|done| |done].
    by eapply exited_frozen_step.
Qed.

(** The goroutine takes a failure of the transport: it is then about to
    enter [closeAllAndNotify] with the error, and nothing else changed. *)
Lemma transport_failure_step (w : World) (i : nat) (c : Conn) (ev : Event)
    (e : error) :
  conns w !! i = Some c → loop c = Running → transport_failure i ev e →
  ∃ w1 c1, step ev w = Done w1 ∧ conns w1 !! i = Some c1 ∧
           loop c1 = Handling e ∧ api w1 = api w.
Proof.
  intros Hi Hl Hev.
  apply get_conn_Done in Hi as Hg. apply lookup_lt_Some in Hi as Hlt.
  destruct Hev as [->|(data & e0 & -> & Hp & ->)]; simpl;
    rewrite Hg; simpl; unfold is_running; rewrite Hl; simpl; rewrite ?Hp;
    eexists _, _; (split; [done|]); simpl;
    by rewrite list_lookup_insert_eq.
Qed.

(** An update whose decoded array has a null element: the goroutine panics
    in [parseData], outside [closeAllAndNotify]. *)
Lemma update_null_element_panics (w : World) (i : nat) (c : Conn)
    (data : list Byte.byte) (flagsArray : list (option Flag)) :
  conns w !! i = Some c → loop c = Running →
  json_Unmarshal data = inr flagsArray → None ∈ flagsArray →
  step (LoopMsg i data) w = Panic nil_dereference.
Proof.
  intros Hi Hl Hdec Hin. simpl.
  apply get_conn_Done in Hi as ->. simpl. unfold is_running. rewrite Hl.
  assert (parseData data = Panic nil_dereference) as ->
    by (apply parseData_Panic; eauto).
  done.
Qed.

(** X24.  In every reachable world the error callback has been called at
    most once for each connection.  When the connection is the one the
    client holds and its goroutine is in its [select], and the goroutine
    takes a transport error, or an update that [json.Unmarshal] rejects,
    and runs [closeAllAndNotify] before any [Close] or [Connect] gets the
    mutex, the registered callback is called exactly once with that error;
    at that point the client holds no stop channel, the transport is
    released and the goroutine has returned, and whatever happens
    afterwards the callback is not called for this connection again. *)
Theorem OnError_once_when_uninterrupted (w : World) (i : nat) (c : Conn) :
  reachable w → conns w !! i = Some c →
  length (notified c) ≤ 1 ∧
  (OnError (api w) = true → loop c = Running → stopCh (api w) = Some i →
   ∀ ev e, transport_failure i ev e →
     ∃ w' c',
       run [ev; LoopNotify i] w = Done w' ∧
       conns w' !! i = Some c' ∧ notified c' = [e] ∧
       stopCh (api w') = None ∧ released c' = true ∧ loop c' = Exited ∧
       ∀ evs w'', run evs w' = Done w'' → conns w'' !! i = Some c').
Proof.
  intros Hr Hi. pose proof (reachable_wf w Hr) as Hw. split.
  { pose proof (wf_lookup w i c Hw Hi) as Hok. unfold conn_ok in Hok.
    destruct (loop c);
      try (assert (notified c = []) as -> by naive_solver; simpl; lia);
      naive_solver. }
  intros Hon Hl Hs ev e Hev.
  destruct (transport_failure_step w i c ev e Hi Hl Hev)
    as (w1 & c1 & Hst & Hi1 & Hl1 & Ha1).
  pose proof (step_wf ev w w1 Hw Hst) as Hw1.
  destruct (closeAllAndNotify_active w1 i c1 e Hw1 Hi1 Hl1)
    as (w' & c' & Hcl & Hw' & Hi' & Hs' & Hl' & Hrel & Hn);
    [by rewrite Ha1|].
  exists w', c'. simpl. rewrite Hst. simpl.
  apply get_conn_Done in Hi1 as ->. simpl. rewrite Hl1, Hcl. simpl.
  rewrite Ha1, Hon in Hn. split_and!; try done.
  intros evs w'' Hrun. by eapply exited_frozen.
Qed.

(** C6.  The error callback is not always notified.  The connection is the
    one the client holds, its goroutine is in its [select] and an error
    callback is registered.  The goroutine takes a transport error, or an
    update that [json.Unmarshal] rejects, and [Close] gets the mutex before
    [closeAllAndNotify] does: [Close] returns, the callback has not been
    called, and the goroutine then panics on [close(stopCh)], which comes
    before the call of the callback, so the callback is never called for
    this connection.  And an update whose decoded array has a null element
    makes the goroutine panic in [parseData], again without any call of
    the callback. *)
Theorem OnError_lost_when_Close_intervenes (w : World) (i : nat) (c : Conn)
    (ev : Event) (e : error) :
  reachable w → conns w !! i = Some c → loop c = Running →
  stopCh (api w) = Some i → OnError (api w) = true →
  transport_failure i ev e →
  (∃ w1 c1,
     run [ev; CallClose] w = Done w1 ∧ conns w1 !! i = Some c1 ∧
     loop c1 = Handling e ∧ notified c1 = [] ∧ OnError (api w1) = true ∧
     run [LoopNotify i] w1 = Panic "close of closed channel") ∧
  run [ev; CallClose; LoopNotify i] w = Panic "close of closed channel" ∧
  ∀ data flagsArray,
    json_Unmarshal data = inr flagsArray → None ∈ flagsArray →
    notified c = [] ∧ run [LoopMsg i data] w = Panic nil_dereference.
Proof.
  intros Hr Hi Hl Hs Hon Hev. pose proof (reachable_wf w Hr) as Hw.
  destruct (transport_failure_step w i c ev e Hi Hl Hev)
    as (w0 & c0 & Hst & Hi0 & Hl0 & Ha0).
  pose proof (step_wf ev w w0 Hw Hst) as Hw0.
  destruct (closeInternal_wf w0 Hw0)
    as (w1 & Hci & Hw1 & Ha1 & _ & Hloops & _).
  assert (∃ c1, conns w1 !! i = Some c1 ∧ loop c1 = Handling e)
    as (c1 & Hi1 & Hl1).
  { assert ((loop <$> conns w1) !! i = Some (Handling e)) as Hlk
      by by rewrite Hloops, list_lookup_fmap, Hi0, <- Hl0.
    rewrite list_lookup_fmap in Hlk.
    destruct (conns w1 !! i) as [c1|]; [|done]. exists c1. naive_solver. }
  assert (stopCh (api w1) ≠ Some i) as Hs1 by by rewrite Ha1.
  assert (notified c1 = []) as Hn1.
  { pose proof (wf_lookup w1 i c1 Hw1 Hi1) as Hok.
    apply conn_ok_running in Hok; [naive_solver|eauto]. }
  assert (run [LoopNotify i] w1 = Panic "close of closed channel") as Hp.
  { simpl. apply get_conn_Done in Hi1 as Hg1. rewrite Hg1. simpl.
    rewrite Hl1. by rewrite (closeAllAndNotify_stale w1 i c1 e). }
  assert (run [ev; CallClose] w = Done w1) as Hrun.
  { simpl. rewrite Hst. simpl. unfold Close. by rewrite Hci. }
  split_and!.
  - exists w1, c1. split_and!; try done. by rewrite Ha1, Ha0.
  - change [ev; CallClose; LoopNotify i]
      with ([ev; CallClose] ++ [LoopNotify i]).
    by rewrite run_app, Hrun.
  - intros data arr Hdec Hin. split.
    + pose proof (wf_lookup w i c Hw Hi) as Hok.
      apply conn_ok_running in Hok; [naive_solver|eauto].
    + cbn [run]. by rewrite (update_null_element_panics w i c data arr).
Qed.

End onerror_facts.

Lemma OnError_once_when_uninterrupted_witness :
  ∃ w' c',
    run (H := Demo.demo_Library) [LoopErr 0 "EOF"; LoopNotify 0]
        Demo.demo_connected = Done w' ∧
    conns w' !! 0 = Some c' ∧ notified c' = ["EOF"] ∧
    stopCh (api w') = None ∧ released c' = true ∧ loop c' = Exited ∧
    ∀ evs w'', run (H := Demo.demo_Library) evs w' = Done w'' →
               conns w'' !! 0 = Some c'.
Proof.
  destruct (OnError_once_when_uninterrupted (H := Demo.demo_Library)
              Demo.demo_connected
              0 (default (NewSseStream (H := Demo.demo_Library) Demo.demo_api
                            {| Raw := ""; Path := "" |})
                         (conns Demo.demo_connected !! 0)))
    as [_ Hex].
  - exists Demo.demo_api, [CallConnect (FirstMsg Demo.demo_payload)].
    reflexivity.
  - reflexivity.
  - apply (Hex eq_refl eq_refl eq_refl (LoopErr 0 "EOF") "EOF").
    by left.
Defined.

Lemma OnError_lost_when_Close_intervenes_witness :
  (∃ w1 c1,
     run (H := Demo.demo_Library) [LoopErr 0 "EOF"; CallClose]
         Demo.demo_connected = Done w1 ∧
     conns w1 !! 0 = Some c1 ∧
     loop c1 = Handling "EOF" ∧ notified c1 = [] ∧ OnError (api w1) = true ∧
     run (H := Demo.demo_Library) [LoopNotify 0] w1
       = Panic "close of closed channel") ∧
  run (H := Demo.demo_Library) [LoopErr 0 "EOF"; CallClose; LoopNotify 0]
      Demo.demo_connected = Panic "close of closed channel" ∧
  ∀ data flagsArray,
    json_Unmarshal (Library := Demo.demo_Library) data = inr flagsArray →
    None ∈ flagsArray →
    notified (default (NewSseStream (H := Demo.demo_Library) Demo.demo_api
                         {| Raw := ""; Path := "" |})
                      (conns Demo.demo_connected !! 0)) = [] ∧
    run (H := Demo.demo_Library) [LoopMsg 0 data] Demo.demo_connected
      = Panic nil_dereference.
Proof.
  refine (OnError_lost_when_Close_intervenes (H := Demo.demo_Library)
            Demo.demo_connected 0 _ (LoopErr 0 "EOF") "EOF" _
            eq_refl eq_refl eq_refl eq_refl (or_introl eq_refl)).
  exists Demo.demo_api, [CallConnect (FirstMsg Demo.demo_payload)].
  reflexivity.
Defined.

(** An update with a null element after a successful [Connect]: the
    goroutine panics and the callback has not been called. *)
Example update_null_element :
  run (H := Demo.demo_Library)
      [CallConnect (FirstMsg Demo.demo_payload);
       LoopMsg 0 [Byte.x63; Byte.x00]]
      (start Demo.demo_api)
  = Panic nil_dereference.
Proof. reflexivity. Qed.

(** ** Further properties of the streaming client *)

Section stream_more.
Context `{Library}.

(** X1.  Any number of sequential [Close] calls does what one call does: none
    panics, and the client holds no stop channel afterwards. *)
Theorem Close_many_times (w : World) (n : nat) :
  reachable w →
  ∃ w', run (replicate (S n) CallClose) w = Done w' ∧
        run [CallClose] w = Done w' ∧ stopCh (api w') = None.
Proof.
  intros Hr. destruct (Close_idempotent w Hr) as (w' & Hc & Hs & Hc').
  exists w'. simpl. rewrite Hc. simpl. split_and!; [|done..].
  induction n as [|n IH]; simpl; [done|]. by rewrite Hc'.
Qed.

(** X4.  At most one connection is live: a connection whose stop channel is
    still open is the one the client holds. *)
Theorem single_active_connection (w : World) (i j : nat) (c d : Conn) :
  reachable w → conns w !! i = Some c → conns w !! j = Some d →
  stopChan c = Some false → stopChan d = Some false →
  i = j ∧ stopCh (api w) = Some i.
Proof.
  intros Hw%reachable_wf Hi Hj Hc Hd.
  assert (∀ k e, conns w !! k = Some e → stopChan e = Some false →
                 stopCh (api w) = Some k) as Hheld.
  { intros k e Hk He. pose proof (wf_lookup w k e Hw Hk) as Hok.
    unfold conn_ok in Hok. rewrite He in Hok.
    destruct (bool_decide (stopCh (api w) = Some k)) eqn:Hb;
      [by apply bool_decide_eq_true in Hb|].
    destruct (loop e); naive_solver. }
  pose proof (Hheld i c Hi Hc) as Hsi. pose proof (Hheld j d Hj Hd) as Hsj.
  split; [congruence|done].
Qed.

(** X5.  No transport is left open without a goroutine that will close it: a
    connection's transport is unreleased exactly while its goroutine is in
    its [select] or about to handle an error. *)
Theorem no_transport_leak (w : World) (i : nat) (c : Conn) :
  reachable w → conns w !! i = Some c →
  released c = false ↔ loop c = Running ∨ ∃ e, loop c = Handling e.
Proof.
  intros Hw%reachable_wf Hi. pose proof (wf_lookup w i c Hw Hi) as Hok.
  unfold conn_ok in Hok. unfold released in *.
  destruct (loop c) eqn:Hl.
  - destruct Hok as (_ & Hrel & _). rewrite Hrel. naive_solver.
  - destruct Hok as (_ & -> & _). naive_solver.
  - destruct Hok as (_ & -> & _). naive_solver.
  - destruct Hok as (_ & Hrel & _). rewrite Hrel. naive_solver.
Qed.

(** X6.  [Connect] first tears down the connection the client holds,
    whatever happens next: its first step, [closeInternal], closes the old
    stop channel and leaves its goroutine to observe that.  [Connect] then
    either returns, and the old connection is still in that state, the
    client does not hold it any more, and holds no connection at all if the
    new attempt failed; or it panics in [parseData] on a first message with
    a null element, which is the only way it does not return. *)
Theorem Connect_tears_down_previous (w : World) (i : nat) (c : Conn)
    (r : Race) :
  reachable w → stopCh (api w) = Some i → conns w !! i = Some c →
  (∃ w1 c1,
     closeInternal w = Done w1 ∧
     conns w1 !! i = Some c1 ∧ stopChan c1 = Some true ∧
     loop c1 = loop c ∧ released c1 = released c ∧
     stopCh (api w1) = None) ∧
  match Connect r w with
  | Done (err, taken, w') =>
      ∃ c', conns w' !! i = Some c' ∧ stopChan c' = Some true ∧
            loop c' = loop c ∧ released c' = released c ∧
            stopCh (api w') ≠ Some i ∧
            (is_Some err → stopCh (api w') = None)
  | Panic msg =>
      msg = nil_dereference ∧
      ∃ data, r = FirstMsg data ∧ parseData data = Panic nil_dereference
  | Disabled => False
  end.
Proof.
  intros Hw%reachable_wf Hs Hi.
  pose proof (wf_lookup w i c Hw Hi) as Hok.
  rewrite bool_decide_eq_true_2 in Hok by done.
  apply conn_ok_active in Hok as (_ & Hst & _).
  apply lookup_lt_Some in Hi as Hlt.
  destruct (Connect_cases r w Hw) as (w1 & Hci & Hc).
  assert (∃ c', conns w1 !! i = Some c' ∧ stopChan c' = Some true ∧
                loop c' = loop c ∧ released c' = released c ∧
                stopCh (api w1) = None ∧
                length (conns w1) = length (conns w))
    as (c' & Hi1 & Hst1 & Hl1 & Hr1 & Hs1 & Hlen).
  { revert Hci. unfold closeInternal. rewrite Hs.
    apply get_conn_Done in Hi as ->. simpl.
    unfold close_stop. rewrite Hst. simpl. intros [= <-]. simpl.
    eexists. rewrite list_lookup_insert_eq by done.
    split; [done|]. by rewrite length_insert. }
  split; [by exists w1, c'|].
  destruct (url_Parse (ServerURL (api w))).
  - destruct Hc as [-> _]. exists c'.
    split_and!; try done. by rewrite Hs1.
  - destruct Hc as [(data & -> & Hp & ->)|(err & cn & w' & -> & _ & Hcs & Hres)];
      [eauto|].
    exists c'. rewrite Hcs.
    rewrite lookup_app_l by (rewrite Hlen; done).
    split_and!; try done.
    + destruct (accepted (api w) r).
      * destruct Hres as (_ & _ & _ & _ & _ & ->). intros [= Heq]. lia.
      * destruct Hres as (_ & _ & _ & _ & ->). done.
    + intros [e He]. destruct (accepted (api w) r).
      * destruct Hres as (-> & _). done.
      * by destruct Hres as (_ & _ & _ & _ & ->).
Qed.

(** X7.  Delivery is best effort around [Close]: a message the goroutine takes
    after [Close] has returned, and before it takes the stop case, is still
    handed to the update callback; the goroutine then releases the
    transport and returns. *)
Theorem update_after_Close (w : World) (i : nat) (c : Conn)
    (data : list Byte.byte) (flags : gmap string Flag) :
  reachable w → stopCh (api w) = Some i → conns w !! i = Some c →
  loop c = Running → is_Some (OnUpdate (api w)) →
  parseData data = Done (inr flags) →
  ∃ w' c', run [CallClose; LoopMsg i data; LoopStop i] w = Done w' ∧
           conns w' !! i = Some c' ∧
           delivered c' = delivered c ++ [flags] ∧
           notified c' = [] ∧ loop c' = Exited ∧ released c' = true.
Proof.
  intros Hw%reachable_wf Hs Hi Hl [f Hf] Hp.
  pose proof (wf_lookup w i c Hw Hi) as Hok.
  rewrite bool_decide_eq_true_2 in Hok by done.
  apply conn_ok_active in Hok as (_ & Hst & Hca & Hm & He & Hn).
  apply lookup_lt_Some in Hi as Hlt.
  simpl. unfold Close, closeInternal. rewrite Hs.
  apply get_conn_Done in Hi as Hg. rewrite Hg. simpl.
  unfold close_stop. rewrite Hst. simpl.
  unfold get_conn. simpl. rewrite list_lookup_insert_eq by done. simpl.
  unfold is_running. simpl. rewrite Hl, Hp. simpl. rewrite Hf. simpl.
  rewrite list_lookup_insert_eq by by rewrite length_insert. simpl.
  unfold closeStream. simpl. rewrite Hm, He. simpl.
  eexists _, _. split; [done|]. simpl.
  rewrite list_lookup_insert_eq by by rewrite !length_insert.
  by split_and!.
Qed.

(** X8.  What [Connect] does once the URL has parsed, case by case: a
    stream error is returned as it is and a timeout has its own message; a
    first message that does not decode gives the decoding error behind a
    fixed prefix without any callback being called; a first message whose
    array has a null element makes [parseData], and [Connect] with it,
    panic on the nil pointer; and for a first message that parses [Connect]
    returns what the initial callback returns after it got the flags
    once, or nil when there is no callback. *)
Theorem Connect_error_values (w : World) (r : Race) (parsed : URL) :
  reachable w → url_Parse (ServerURL (api w)) = inr parsed →
  match r with
  | StreamErr e =>
      ∃ w', Connect r w = Done (Some e, Some r, w') ∧
            initUpdates w' = initUpdates w
  | Timeout =>
      ∃ w', Connect r w = Done (Some "stream connect timeout", Some r, w') ∧
            initUpdates w' = initUpdates w
  | FirstMsg data =>
      match parseData data with
      | Panic msg => msg = nil_dereference ∧ Connect r w = Panic msg
      | Disabled => False
      | Done (inl e) =>
          ∃ w', Connect r w
                = Done (Some ("stream corrupt data, cause: " +:+ e),
                        Some r, w') ∧
                initUpdates w' = initUpdates w
      | Done (inr flags) =>
          match initCallback (api w) with
          | Some cb =>
              ∃ w', Connect r w = Done (cb flags, Some r, w') ∧
                    initUpdates w' = initUpdates w ++ [flags]
          | None =>
              ∃ w', Connect r w = Done (None, Some r, w') ∧
                    initUpdates w' = initUpdates w
          end
      end
  end.
Proof.
  intros Hw%reachable_wf Hu.
  destruct (closeInternal_wf w Hw)
    as (w1 & Hci & _ & Hapi & _ & _ & _ & Hinit).
  unfold Connect. rewrite Hci. simpl.
  assert (ServerURL (api w1) = ServerURL (api w)) as -> by by rewrite Hapi.
  assert (initCallback (api w1) = initCallback (api w)) as ->
    by by rewrite Hapi.
  rewrite Hu. destruct r as [data|e|]; simpl.
  - pose proof (parseData_enabled data) as Hen.
    destruct (parseData data) as [[e|flags]|msg|] eqn:Hp; simpl; [| | |done].
    + eexists. by split.
    + destruct (initCallback (api w)) as [cb|]; simpl.
      * destruct (cb flags); simpl; eexists; (split; [done|]);
          simpl; by rewrite Hinit.
      * eexists. split; [done|]. simpl. by rewrite Hinit, app_nil_r.
    + by apply parseData_Panic in Hp as [-> _].
  - eexists. by split.
  - eexists. by split.
Qed.

(** X9.  The two ways the client panics.  A step of a reachable world
    panics only when a goroutine enters [closeAllAndNotify] for a connection
    whose stop channel the client no longer holds, with the message of a
    double close; or when [parseData] meets a null element in the decoded
    array, in [Connect] on the first message or in the goroutine on an
    update, with the message of a nil pointer dereference.  [Close], the
    stop case, the receipt of an error and every other [Connect] and update
    never panic. *)
Theorem panic_causes (w : World) (ev : StreamApi.Event) (msg : string) :
  reachable w → step ev w = Panic msg →
  (∃ i c e, ev = LoopNotify i ∧ conns w !! i = Some c ∧
            loop c = Handling e ∧ stopCh (api w) ≠ Some i ∧
            msg = "close of closed channel") ∨
  (∃ data flagsArray,
     (ev = CallConnect (FirstMsg data) ∨
      ∃ i c, ev = LoopMsg i data ∧ conns w !! i = Some c ∧
             loop c = Running) ∧
     json_Unmarshal data = inr flagsArray ∧ None ∈ flagsArray ∧
     msg = nil_dereference).
Proof.
  intros Hw%reachable_wf. destruct ev as [r| |i|i data|i e|i]; simpl.
  - destruct (Connect_cases r w Hw) as (w1 & _ & Hc).
    destruct (url_Parse (ServerURL (api w))).
    + by destruct Hc as [-> _].
    + destruct Hc as [(data & -> & Hp & ->)|(err & c & w' & -> & _)];
        [|done].
      simpl. intros [= <-]. right.
      apply parseData_Panic in Hp as (_ & arr & Hdec & Hin).
      exists data, arr. split_and!; [by left|done..].
  - unfold Close. by destruct (closeInternal_wf w Hw) as (w1 & -> & _).
  - destruct (get_conn i w) as [c|m|] eqn:Hg; simpl;
      [|by (unfold get_conn in Hg; destruct (conns w !! i))|done].
    apply get_conn_Done in Hg.
    destruct (is_running c) eqn:Hr; simpl; [|done].
    case_bool_decide; simpl; [|done].
    pose proof (wf_lookup w i c Hw Hg) as Hok.
    unfold is_running in Hr. destruct (loop c) eqn:Hl; try done.
    apply conn_ok_running in Hok as (_ & _ & Hm & He & _); [|eauto].
    unfold closeStream. by rewrite Hm, He.
  - destruct (get_conn i w) as [c|m|] eqn:Hg; simpl;
      [|by (unfold get_conn in Hg; destruct (conns w !! i))|done].
    apply get_conn_Done in Hg.
    destruct (is_running c) eqn:Hr; [|done].
    destruct (parseData data) as [[?|?]|m|] eqn:Hp; simpl; try done.
    intros [= <-]. right.
    apply parseData_Panic in Hp as (-> & arr & Hdec & Hin).
    exists data, arr. split_and!; [|done..].
    right. exists i, c. split_and!; [done..|].
    unfold is_running in Hr. by destruct (loop c).
  - destruct (get_conn i w) as [c|m|] eqn:Hg; simpl;
      [|by (unfold get_conn in Hg; destruct (conns w !! i))|done].
    by destruct (is_running c).
  - destruct (get_conn i w) as [c|m|] eqn:Hg; simpl;
      [|by (unfold get_conn in Hg; destruct (conns w !! i))|done].
    apply get_conn_Done in Hg.
    destruct (loop c) as [| |e|] eqn:Hl; try done.
    destruct (decide (stopCh (api w) = Some i)) as [Hs|Hs].
    + by destruct (closeAllAndNotify_active w i c e Hw Hg Hl Hs)
        as (w2 & c2 & -> & _).
    + rewrite (closeAllAndNotify_stale w i c e Hw Hg Hl Hs).
      intros [= <-]. left. by exists i, c, e.
Qed.

End stream_more.

Section rekey_more.

(** X10.  With pairwise distinct keys the re-keyed map does not depend on the
    order of the array. *)
Theorem rekey_permutation (l1 l2 : list Flag) :
  l1 ≡ₚ l2 → NoDup (Key <$> l1) → rekey l1 = rekey l2.
Proof.
  intros Hp Hnd. assert (NoDup (Key <$> l2)) as Hnd2 by by rewrite <- Hp.
  apply map_eq. intros k.
  destruct (rekey l1 !! k) as [f|] eqn:H1.
  - apply rekey_lookup_Some in H1 as [Hin <-].
    symmetry. apply rekey_NoDup; [done|]. by rewrite <- Hp.
  - destruct (rekey l2 !! k) as [g|] eqn:H2; [|done].
    apply rekey_lookup_Some in H2 as [Hin <-].
    rewrite rekey_NoDup in H1; [done|done|]. by rewrite Hp.
Qed.

End rekey_more.

Lemma Close_many_times_witness :
  ∃ w', run (H := Demo.demo_Library) (replicate 3 CallClose)
            Demo.demo_connected = Done w' ∧
        run (H := Demo.demo_Library) [CallClose] Demo.demo_connected
          = Done w' ∧
        stopCh (api w') = None.
Proof.
  apply (Close_many_times (H := Demo.demo_Library) Demo.demo_connected 2).
  exists Demo.demo_api, [CallConnect (FirstMsg Demo.demo_payload)].
  reflexivity.
Defined.

Lemma Close_then_stop_releases_witness :
  ∃ w' c', run (H := Demo.demo_Library) [CallClose; LoopStop 0]
               Demo.demo_connected = Done w' ∧
           conns w' !! 0 = Some c' ∧ loop c' = Exited ∧
           released c' = true ∧ stopChan c' = Some true ∧
           stopCh (api w') = None.
Proof.
  eapply (Close_then_stop_releases (H := Demo.demo_Library)
           Demo.demo_connected 0 _).
  - exists Demo.demo_api, [CallConnect (FirstMsg Demo.demo_payload)].
    reflexivity.
  - reflexivity.
  - reflexivity.
  - reflexivity.
Defined.

Lemma stale_handler_panics_witness :
  run (H := Demo.demo_Library) [CallClose; LoopNotify 0] Demo.demo_handling
  = Panic "close of closed channel".
Proof.
  eapply (stale_handler_panics (H := Demo.demo_Library) Demo.demo_handling 0
           _ "EOF").
  - exists Demo.demo_api,
      [CallConnect (FirstMsg Demo.demo_payload); LoopErr 0 "EOF"].
    reflexivity.
  - reflexivity.
  - reflexivity.
  - reflexivity.
Defined.

Lemma single_active_connection_witness :
  0 = 0 ∧ stopCh (api Demo.demo_connected) = Some 0.
Proof.
  eapply (single_active_connection (H := Demo.demo_Library)
           Demo.demo_connected 0 0 _ _).
  - exists Demo.demo_api, [CallConnect (FirstMsg Demo.demo_payload)].
    reflexivity.
  - reflexivity.
  - reflexivity.
  - reflexivity.
  - reflexivity.
Defined.

Lemma no_transport_leak_witness :
  released (default (set_loop NoLoop
                       (NewSseStream (H := Demo.demo_Library) Demo.demo_api
                          {| Raw := ""; Path := "" |}))
                    (conns Demo.demo_connected !! 0)) = false ↔
  loop (default (set_loop NoLoop
                   (NewSseStream (H := Demo.demo_Library) Demo.demo_api
                      {| Raw := ""; Path := "" |}))
                (conns Demo.demo_connected !! 0)) = Running ∨
  ∃ e, loop (default (set_loop NoLoop
                        (NewSseStream (H := Demo.demo_Library) Demo.demo_api
                           {| Raw := ""; Path := "" |}))
                     (conns Demo.demo_connected !! 0)) = Handling e.
Proof.
  apply (no_transport_leak (H := Demo.demo_Library) Demo.demo_connected 0).
  - exists Demo.demo_api, [CallConnect (FirstMsg Demo.demo_payload)].
    reflexivity.
  - reflexivity.
Defined.

Lemma Connect_tears_down_previous_witness :
  (∃ w1 c1,
     closeInternal Demo.demo_connected = Done w1 ∧
     conns w1 !! 0 = Some c1 ∧ stopChan c1 = Some true ∧
     loop c1 = Running ∧ released c1 = false ∧
     stopCh (api w1) = None) ∧
  match Connect (H := Demo.demo_Library) Timeout Demo.demo_connected with
  | Done (err, taken, w') =>
      ∃ c', conns w' !! 0 = Some c' ∧ stopChan c' = Some true ∧
            loop c' = Running ∧ released c' = false ∧
            stopCh (api w') ≠ Some 0 ∧
            (is_Some err → stopCh (api w') = None)
  | Panic msg =>
      msg = nil_dereference ∧
      ∃ data, Timeout = FirstMsg data ∧
              parseData (H := Demo.demo_Library) data = Panic nil_dereference
  | Disabled => False
  end.
Proof.
  refine (Connect_tears_down_previous (H := Demo.demo_Library)
            Demo.demo_connected 0 _ Timeout _ eq_refl eq_refl).
  exists Demo.demo_api, [CallConnect (FirstMsg Demo.demo_payload)].
  reflexivity.
Defined.

Lemma update_after_Close_witness :
  ∃ w' c', run (H := Demo.demo_Library)
               [CallClose; LoopMsg 0 [Byte.x63]; LoopStop 0]
               Demo.demo_connected = Done w' ∧
           conns w' !! 0 = Some c' ∧
           delivered c' = [] ++ [rekey [Demo.demo_flag "c"]] ∧
           notified c' = [] ∧ loop c' = Exited ∧ released c' = true.
Proof.
  refine (update_after_Close (H := Demo.demo_Library) Demo.demo_connected 0 _
            [Byte.x63] (rekey [Demo.demo_flag "c"]) _ eq_refl eq_refl eq_refl
            (ex_intro _ _ eq_refl) eq_refl).
  exists Demo.demo_api, [CallConnect (FirstMsg Demo.demo_payload)].
  reflexivity.
Defined.

Lemma Connect_error_values_witness :
  ∃ w',
    Connect (H := Demo.demo_Library) (FirstMsg []) Demo.demo_connected
      = Done (Some "stream corrupt data, cause: unexpected end of JSON input",
              Some (FirstMsg []), w') ∧
    initUpdates w' = initUpdates Demo.demo_connected.
Proof.
  apply (Connect_error_values (H := Demo.demo_Library) Demo.demo_connected
           (FirstMsg [])
           {| Raw := "https://stream.example.com/"; Path := "" |}).
  - exists Demo.demo_api, [CallConnect (FirstMsg Demo.demo_payload)].
    reflexivity.
  - reflexivity.
Defined.

Lemma panic_causes_witness :
  (∃ i c e, LoopNotify 0 = LoopNotify i ∧
            conns Demo.demo_stale !! i = Some c ∧
            loop c = Handling e ∧ stopCh (api Demo.demo_stale) ≠ Some i ∧
            "close of closed channel" = "close of closed channel") ∨
  (∃ data flagsArray,
     (LoopNotify 0 = CallConnect (FirstMsg data) ∨
      ∃ i c, LoopNotify 0 = LoopMsg i data ∧
             conns Demo.demo_stale !! i = Some c ∧ loop c = Running) ∧
     json_Unmarshal (Library := Demo.demo_Library) data = inr flagsArray ∧
     None ∈ flagsArray ∧
     "close of closed channel" = nil_dereference).
Proof.
  apply (panic_causes (H := Demo.demo_Library)
           Demo.demo_stale (LoopNotify 0) "close of closed channel").
  - exists Demo.demo_api,
      [CallConnect (FirstMsg Demo.demo_payload); LoopErr 0 "EOF"; CallClose].
    reflexivity.
  - reflexivity.
Defined.

Lemma rekey_permutation_witness :
  rekey [Demo.demo_flag "a"; Demo.demo_flag "b"]
  = rekey [Demo.demo_flag "b"; Demo.demo_flag "a"].
Proof.
  apply rekey_permutation.
  - apply perm_swap.
  - apply NoDup_cons. split; [|apply NoDup_singleton].
    intros Hin%list_elem_of_singleton. discriminate.
Defined.

(** * Properties of the assignment events *)

Import Assignment.

Section string_facts.

Lemma string_length_app (s t : string) :
  String.length (s +:+ t) = String.length s + String.length t.
Proof. induction s as [|a s IH]; simpl; [done|]. by rewrite IH. Qed.

(** Appending a fixed suffix is injective, as appending to a fixed prefix
    is. *)
Lemma append_suffix_inj (t s1 s2 : string) : s1 +:+ t = s2 +:+ t → s1 = s2.
Proof.
  revert s2. induction s1 as [|a s1 IH]; intros [|b s2] Heq.
  - done.
  - apply (f_equal String.length) in Heq.
    rewrite !string_length_app in Heq. simpl in Heq. lia.
  - apply (f_equal String.length) in Heq.
    rewrite !string_length_app in Heq. simpl in Heq. lia.
  - change (String a (s1 +:+ t) = String b (s2 +:+ t)) in Heq.
    injection Heq as -> Heq. f_equal. by apply IH.
Qed.

Lemma append_prefix_inj (t s1 s2 : string) : t +:+ s1 = t +:+ s2 → s1 = s2.
Proof. apply (inj (String.append t)). Qed.

End string_facts.

Section event_facts.

Lemma eventProperties_lookup (rs : gmap string Result) (k : string) :
  eventProperties rs !! (k +:+ ".variant")
  = (λ r, VString (VariantKey (Variant r))) <$> rs !! k.
Proof.
  unfold eventProperties. revert k.
  apply (map_fold_weak_ind (λ props m, ∀ k,
    props !! (k +:+ ".variant")
    = (λ r, VString (VariantKey (Variant r))) <$> m !! k)).
  - intros k. by rewrite !lookup_empty.
  - intros i x m props Hi IH k. destruct (decide (i = k)) as [->|Hne].
    + by rewrite !lookup_insert_eq.
    + rewrite !lookup_insert_ne; [apply IH|done|].
      intros Heq%append_suffix_inj. done.
Qed.

Lemma eventProperties_source (rs : gmap string Result) (key : string)
    (v : Value) :
  eventProperties rs !! key = Some v →
  ∃ k r, rs !! k = Some r ∧ key = k +:+ ".variant" ∧
         v = VString (VariantKey (Variant r)).
Proof.
  unfold eventProperties. revert key v.
  apply (map_fold_weak_ind (λ props m, ∀ key v,
    props !! key = Some v →
    ∃ k r, m !! k = Some r ∧ key = k +:+ ".variant" ∧
           v = VString (VariantKey (Variant r)))).
  - intros key v. by rewrite lookup_empty.
  - intros i x m props Hi IH key v.
    destruct (decide (i +:+ ".variant" = key)) as [<-|Hne].
    + rewrite lookup_insert_eq. intros [= <-]. exists i, x.
      by rewrite lookup_insert_eq.
    + rewrite lookup_insert_ne by done. intros (k & r & Hk & ? & ?)%IH.
      exists k, r. rewrite lookup_insert_ne; [done|]. intros ->. congruence.
Qed.

Lemma userProperties_lookup (rs : gmap string Result) (k : string) :
  (userProperties rs).1 !! ("[Experiment] " +:+ k) = rs !! k ≫= setEntry ∧
  (userProperties rs).2 !! ("[Experiment] " +:+ k) = rs !! k ≫= unsetEntry.
Proof.
  unfold userProperties. revert k.
  apply (map_fold_weak_ind (λ su m, ∀ k,
    su.1 !! ("[Experiment] " +:+ k) = m !! k ≫= setEntry ∧
    su.2 !! ("[Experiment] " +:+ k) = m !! k ≫= unsetEntry)).
  - intros k. simpl. by rewrite !lookup_empty.
  - intros i x m su Hi IH k. destruct (IH k) as [IH1 IH2].
    destruct (decide (i = k)) as [->|Hne].
    + rewrite lookup_insert_eq. simpl. rewrite Hi in IH1, IH2.
      unfold setEntry, unsetEntry.
      destruct (decide (Type_ x = _)); [done|].
      destruct (IsDefaultVariant x); simpl; by rewrite ?lookup_insert_eq.
    + rewrite lookup_insert_ne by done.
      assert ("[Experiment] " +:+ i ≠ "[Experiment] " +:+ k)
        by (by intros ?%append_prefix_inj).
      destruct (decide (Type_ x = _)); [done|].
      destruct (IsDefaultVariant x); simpl; by rewrite ?lookup_insert_ne.
Qed.

Lemma userProperties_source (rs : gmap string Result) (key : string) :
  is_Some ((userProperties rs).1 !! key) ∨
  is_Some ((userProperties rs).2 !! key) →
  ∃ k r, rs !! k = Some r ∧ key = "[Experiment] " +:+ k ∧
         Type_ r ≠ FlagTypeMutualExclusionGroup.
Proof.
  unfold userProperties. revert key.
  apply (map_fold_weak_ind (λ su m, ∀ key,
    is_Some (su.1 !! key) ∨ is_Some (su.2 !! key) →
    ∃ k r, m !! k = Some r ∧ key = "[Experiment] " +:+ k ∧
           Type_ r ≠ FlagTypeMutualExclusionGroup)).
  - intros key. simpl. rewrite !lookup_empty. by intros [[? ?]|[? ?]].
  - intros i x m su Hi IH key Hkey.
    assert (∀ k r, m !! k = Some r → <[i := x]> m !! k = Some r) as Hmono.
    { intros k r Hk. rewrite lookup_insert_ne; [done|]. congruence. }
    assert (is_Some (su.1 !! key) ∨ is_Some (su.2 !! key) ∨
            (key = "[Experiment] " +:+ i ∧
             Type_ x ≠ FlagTypeMutualExclusionGroup)) as [Hold|[Hold|Hnew]].
    { destruct (decide (Type_ x = _)); [naive_solver|].
      destruct (decide (key = "[Experiment] " +:+ i)) as [->|Hne];
        [naive_solver|].
      destruct (IsDefaultVariant x); simpl in Hkey;
        rewrite lookup_insert_ne in Hkey by done; naive_solver. }
    + destruct (IH key (or_introl Hold)) as (k & r & ? & ? & ?).
      exists k, r. eauto.
    + destruct (IH key (or_intror Hold)) as (k & r & ? & ? & ?).
      exists k, r. eauto.
    + destruct Hnew as [-> ?]. exists i, x. by rewrite lookup_insert_eq.
Qed.

End event_facts.

Section toEvent_facts.
Context `{Helpers}.

(** C5.  Every result of the assignment puts its variant key under
    "<flagKey>.variant" into the event properties, whatever its type.  The
    user properties consist of the [$set] and the [$unset] map; a result of
    type mutual-exclusion-group has no entry in either, and every entry of
    either map is the "[Experiment] <flagKey>" entry of a result that is not
    a mutual-exclusion group. *)
Theorem toEvent_mutual_exclusion_groups (a : assignment) (k : string)
    (r : Result) :
  results a !! k = Some r →
  EventProperties (toEvent a) !! (k +:+ ".variant")
    = Some (VString (VariantKey (Variant r))) ∧
  ∃ set unset,
    UserProperties (toEvent a) !! "$set" = Some set ∧
    UserProperties (toEvent a) !! "$unset" = Some unset ∧
    dom (UserProperties (toEvent a)) =@{gset string} {["$set"; "$unset"]} ∧
    (Type_ r = FlagTypeMutualExclusionGroup →
     set !! ("[Experiment] " +:+ k) = None ∧
     unset !! ("[Experiment] " +:+ k) = None) ∧
    (Type_ r ≠ FlagTypeMutualExclusionGroup →
     if IsDefaultVariant r
     then set !! ("[Experiment] " +:+ k) = None ∧
          unset !! ("[Experiment] " +:+ k) = Some (VString "-")
     else set !! ("[Experiment] " +:+ k)
            = Some (VString (VariantKey (Variant r))) ∧
          unset !! ("[Experiment] " +:+ k) = None) ∧
    (∀ key, is_Some (set !! key) ∨ is_Some (unset !! key) →
            ∃ k' r', results a !! k' = Some r' ∧
                     key = "[Experiment] " +:+ k' ∧
                     Type_ r' ≠ FlagTypeMutualExclusionGroup).
Proof.
  intros Hk. split.
  { simpl. by rewrite eventProperties_lookup, Hk. }
  exists (userProperties (results a)).1, (userProperties (results a)).2.
  destruct (userProperties_lookup (results a) k) as [Hs Hu].
  rewrite Hk in Hs, Hu. simpl in Hs, Hu. unfold setEntry in Hs.
  unfold unsetEntry in Hu. split_and!.
  - simpl. by rewrite lookup_insert_ne, lookup_insert_eq.
  - simpl. by rewrite lookup_insert_eq.
  - simpl. rewrite !dom_insert_L, dom_empty_L. set_solver.
  - intros Hm. by rewrite decide_True in Hs, Hu.
  - intros Hm. rewrite decide_False in Hs, Hu by done.
    by destruct (IsDefaultVariant r).
  - apply userProperties_source.
Qed.

(** The day bucket of a timestamp inside day [d] is [d]. *)
Lemma day_bucket (t d : Z) :
  (0 ≤ d → d * DayMillis ≤ t < (d + 1) * DayMillis →
   t `quot` DayMillis = d)%Z.
Proof.
  intros Hd Ht. unfold DayMillis in *.
  rewrite Z.quot_div_nonneg by lia.
  symmetry. apply (Z.div_unique t _ d (t - d * 86400000)); lia.
Qed.

(** C8.  The insert id of the event is the text "<user id> <device id>
    <hash> <day>", where the hash is that of the canonicalized assignment
    and the day is the timestamp divided by [DayMillis] = 86400000 with the
    remainder dropped; so two assignments that agree on the four components
    get the same insert id. *)
Theorem insertID_deterministic (a1 a2 : assignment) :
  UserId (user a1) = UserId (user a2) →
  DeviceId (user a1) = DeviceId (user a2) →
  hashCode (Canonicalize a1) = hashCode (Canonicalize a2) →
  (timestamp a1 `quot` DayMillis = timestamp a2 `quot` DayMillis)%Z →
  InsertID (toEvent a1) = InsertID (toEvent a2) ∧
  InsertID (toEvent a1)
    = UserID (toEvent a1) +:+ " " +:+ DeviceID (toEvent a1) +:+ " " +:+
      pretty (hashCode (Canonicalize a1)) +:+ " " +:+
      pretty (timestamp a1 `quot` 86400000)%Z.
Proof.
  intros Hu Hd Hh Ht. split; [|done].
  simpl. unfold insertID. by rewrite Hu, Hd, Hh, Ht.
Qed.

End toEvent_facts.

Lemma toEvent_mutual_exclusion_groups_witness :
  EventProperties (toEvent (H := Demo.demo_Helpers) (Demo.demo_assignment 0))
    !! "holdout.variant" = Some (VString "slot-1") ∧
  ∃ set unset,
    UserProperties (toEvent (H := Demo.demo_Helpers) (Demo.demo_assignment 0))
      !! "$set" = Some set ∧
    UserProperties (toEvent (H := Demo.demo_Helpers) (Demo.demo_assignment 0))
      !! "$unset" = Some unset ∧
    set !! "[Experiment] holdout" = None ∧
    unset !! "[Experiment] holdout" = None.
Proof.
  destruct (toEvent_mutual_exclusion_groups (H := Demo.demo_Helpers)
              (Demo.demo_assignment 0) "holdout"
              {| Variant := {| VariantKey := "slot-1" |};
                 Type_ := "mutual-exclusion-group";
                 IsDefaultVariant := false |} eq_refl)
    as (He & set & unset & Hs & Hu & _ & Hm & _).
  split; [exact He|]. exists set, unset.
  split; [exact Hs|]. split; [exact Hu|]. exact (Hm eq_refl).
Defined.

Lemma insertID_deterministic_witness :
  InsertID (toEvent (H := Demo.demo_Helpers) (Demo.demo_assignment 1000))
  = InsertID (toEvent (H := Demo.demo_Helpers)
                (Demo.demo_assignment 86399999)).
Proof.
  apply (insertID_deterministic (H := Demo.demo_Helpers)
           (Demo.demo_assignment 1000) (Demo.demo_assignment 86399999));
    reflexivity.
Defined.

Example insertID_demo :
  InsertID (toEvent (H := Demo.demo_Helpers) (Demo.demo_assignment 172800001))
  = "user-1 device-1 " +:+
    pretty (Demo.demo_hashCode
              (Demo.demo_Canonicalize (Demo.demo_assignment 0))) +:+ " 2".
Proof. reflexivity. Qed.

Example insertID_negative_timestamp :
  (timestamp (Demo.demo_assignment (-1)) `quot` DayMillis = 0)%Z.
Proof. reflexivity. Qed.

(** ** Further properties of the assignment events *)

Section event_more.
Context `{Helpers}.

Lemma eventProperties_keys (rs : gmap string Result) (key : string) :
  is_Some (eventProperties rs !! key) ↔
  ∃ k, key = k +:+ ".variant" ∧ is_Some (rs !! k).
Proof.
  split.
  - intros [v (k & r & Hk & -> & _)%eventProperties_source]. eauto.
  - intros (k & -> & [r Hr]). rewrite eventProperties_lookup, Hr. by eexists.
Qed.

Lemma eventProperties_size (rs : gmap string Result) :
  size (eventProperties rs) = size rs.
Proof.
  unfold eventProperties.
  apply (map_fold_weak_ind (λ props m,
    (∀ key, is_Some (props !! key) →
            ∃ k, key = k +:+ ".variant" ∧ is_Some (m !! k)) ∧
    size props = size m)).
  - split; [|by rewrite !map_size_empty].
    intros key. rewrite lookup_empty. by intros [? ?].
  - intros i x m props Hi [Hsrc Hsz].
    assert (props !! (i +:+ ".variant") = None) as Hfresh.
    { destruct (props !! (i +:+ ".variant")) eqn:Hp; [|done].
      destruct (Hsrc (i +:+ ".variant")) as (k & Hk & [? Hm]); [by eexists|].
      apply append_suffix_inj in Hk as <-. congruence. }
    split.
    + intros key. destruct (decide (i +:+ ".variant" = key)) as [<-|Hne].
      * intros _. exists i. by rewrite lookup_insert_eq.
      * rewrite lookup_insert_ne by done. intros (k & -> & Hk)%Hsrc.
        exists k. split; [done|]. rewrite lookup_insert_ne; [done|].
        by intros ->.
    + by rewrite !map_size_insert_None, Hsz.
Qed.

(** X11.  The event properties have exactly one entry per result: the keys are
    the flag keys followed by ".variant", and there are as many entries as
    results. *)
Theorem toEvent_one_property_per_result (a : assignment) :
  size (EventProperties (toEvent a)) = size (results a) ∧
  ∀ key, is_Some (EventProperties (toEvent a) !! key) ↔
         ∃ k, key = k +:+ ".variant" ∧ is_Some (results a !! k).
Proof. split; [apply eventProperties_size|apply eventProperties_keys]. Qed.

Lemma userProperties_count (rs : gmap string Result) :
  size (userProperties rs).1 + size (userProperties rs).2
  = size (filter (λ kr, Type_ kr.2 ≠ FlagTypeMutualExclusionGroup) rs).
Proof.
  unfold userProperties.
  apply (map_fold_weak_ind (λ su m,
    (∀ key, is_Some (su.1 !! key) ∨ is_Some (su.2 !! key) →
            ∃ k, key = "[Experiment] " +:+ k ∧ is_Some (m !! k)) ∧
    size su.1 + size su.2
    = size (filter (λ kr, Type_ kr.2 ≠ FlagTypeMutualExclusionGroup) m))).
  - split; [|by rewrite map_filter_empty, !map_size_empty].
    intros key. simpl. rewrite !lookup_empty. by intros [[? ?]|[? ?]].
  - intros i x m su Hi [Hsrc Hsz].
    assert (su.1 !! ("[Experiment] " +:+ i) = None ∧
            su.2 !! ("[Experiment] " +:+ i) = None) as [Hf1 Hf2].
    { split.
      - destruct (su.1 !! ("[Experiment] " +:+ i)) eqn:Hp; [|done].
        destruct (Hsrc ("[Experiment] " +:+ i)) as (k & Hk & [? Hm]);
          [left; by eexists|].
        apply append_prefix_inj in Hk as <-. congruence.
      - destruct (su.2 !! ("[Experiment] " +:+ i)) eqn:Hp; [|done].
        destruct (Hsrc ("[Experiment] " +:+ i)) as (k & Hk & [? Hm]);
          [right; by eexists|].
        apply append_prefix_inj in Hk as <-. congruence. }
    assert (∀ key, is_Some (su.1 !! key) ∨ is_Some (su.2 !! key) →
                   ∃ k, key = "[Experiment] " +:+ k ∧
                        is_Some (<[i := x]> m !! k)) as Hold.
    { intros key (k & -> & Hk)%Hsrc. exists k. split; [done|].
      rewrite lookup_insert_ne; [done|]. intros ->.
      rewrite Hi in Hk. by destruct Hk. }
    assert (filter (λ kr, Type_ kr.2 ≠ FlagTypeMutualExclusionGroup) m !! i
            = None) as Hfi.
    { apply map_lookup_filter_None. left. done. }
    destruct (decide (Type_ x = FlagTypeMutualExclusionGroup)) as [Hm|Hm].
    { split; [done|]. rewrite Hsz. f_equal. symmetry.
      apply map_filter_insert_not'; simpl; [naive_solver|].
      intros y. by rewrite Hi. }
    rewrite map_filter_insert_True by done.
    rewrite map_size_insert_None by done.
    destruct (IsDefaultVariant x); simpl; split.
    + intros key [Hk|Hk]; [apply Hold; by left|].
      destruct (decide ("[Experiment] " +:+ i = key)) as [<-|Hne].
      * exists i. by rewrite lookup_insert_eq.
      * rewrite lookup_insert_ne in Hk by done. apply Hold. by right.
    + rewrite map_size_insert_None by done. lia.
    + intros key [Hk|Hk]; [|apply Hold; by right].
      destruct (decide ("[Experiment] " +:+ i = key)) as [<-|Hne].
      * exists i. by rewrite lookup_insert_eq.
      * rewrite lookup_insert_ne in Hk by done. apply Hold. by left.
    + rewrite map_size_insert_None by done. lia.
Qed.

(** X12.  The [$set] and the [$unset] map split the results that are not
    mutual-exclusion groups between them: no property is both set and
    unset, and together the two maps have one entry per such result. *)
Theorem toEvent_set_unset_partition (a : assignment) :
  ∃ set unset,
    UserProperties (toEvent a) !! "$set" = Some set ∧
    UserProperties (toEvent a) !! "$unset" = Some unset ∧
    (∀ key, ¬ (is_Some (set !! key) ∧ is_Some (unset !! key))) ∧
    size set + size unset
    = size (filter (λ kr, Type_ kr.2 ≠ FlagTypeMutualExclusionGroup)
                   (results a)).
Proof.
  exists (userProperties (results a)).1, (userProperties (results a)).2.
  split_and!.
  - simpl. by rewrite lookup_insert_ne, lookup_insert_eq.
  - simpl. by rewrite lookup_insert_eq.
  - intros key [Hs Hu].
    destruct (userProperties_source (results a) key (or_introl Hs))
      as (k & r & Hk & -> & _).
    destruct (userProperties_lookup (results a) k) as [H1 H2].
    rewrite Hk in H1, H2. simpl in H1, H2. rewrite H1 in Hs.
    rewrite H2 in Hu. unfold setEntry in Hs. unfold unsetEntry in Hu.
    destruct (decide _); [by destruct Hs|].
    destruct (IsDefaultVariant r); [by destruct Hs|by destruct Hu].
  - apply userProperties_count.
Qed.

(** X13.  For one user, device and assignment hash, two insert ids are equal
    exactly when the day buckets are; for timestamps that are not negative
    this is when they lie in the same window of [DayMillis] milliseconds. *)
Theorem insertID_same_day_iff (a1 a2 : assignment) :
  UserId (user a1) = UserId (user a2) →
  DeviceId (user a1) = DeviceId (user a2) →
  hashCode (Canonicalize a1) = hashCode (Canonicalize a2) →
  (InsertID (toEvent a1) = InsertID (toEvent a2) ↔
   (timestamp a1 `quot` DayMillis = timestamp a2 `quot` DayMillis)%Z) ∧
  ((0 ≤ timestamp a1)%Z → (0 ≤ timestamp a2)%Z →
   InsertID (toEvent a1) = InsertID (toEvent a2) ↔
   (timestamp a1 `div` 86400000 = timestamp a2 `div` 86400000)%Z).
Proof.
  intros Hu Hd Hh.
  assert (InsertID (toEvent a1) = InsertID (toEvent a2) ↔
          (timestamp a1 `quot` DayMillis
           = timestamp a2 `quot` DayMillis)%Z) as Hiff.
  { simpl. unfold insertID. rewrite Hu, Hd, Hh. split.
    - intros Heq. do 6 apply append_prefix_inj in Heq.
      by apply (inj pretty) in Heq.
    - by intros ->. }
  split; [done|]. intros H1 H2. rewrite Hiff. unfold DayMillis.
  by rewrite !Z.quot_div_nonneg by lia.
Qed.

End event_more.

Lemma insertID_same_day_iff_witness :
  InsertID (toEvent (H := Demo.demo_Helpers) (Demo.demo_assignment 86399999))
  ≠ InsertID (toEvent (H := Demo.demo_Helpers)
                (Demo.demo_assignment 86400000)).
Proof.
  destruct (insertID_same_day_iff (H := Demo.demo_Helpers)
              (Demo.demo_assignment 86399999) (Demo.demo_assignment 86400000)
              eq_refl eq_refl eq_refl) as [Hiff _].
  intros Heq. apply Hiff in Heq. discriminate Heq.
Defined.

(** * Properties of the client *)

Import Client.

Section evaluate_facts.
Context `{Collaborators}.

(** [enrichUser] never fails. *)
Lemma enrichUser_nil_error (u : User) (flagConfigs : gmap string Flag) :
  (enrichUser u flagConfigs).2 = None.
Proof. done. Qed.

(** No path of [EvaluateV2] writes to the snapshot or to the flag
    metadata. *)
Lemma EvaluateV2_snapshot (now : Z) (c : Client) (u : User)
    (flagKeys : list string) :
  flagConfigStorage (EvaluateV2 now c u flagKeys).2 = flagConfigStorage c ∧
  heap (EvaluateV2 now c u flagKeys).2 = heap c.
Proof.
  unfold EvaluateV2. simpl.
  destruct (topologicalSort _ _); simpl; [done|].
  by destruct (assignmentService c).
Qed.

(** C4.  When the topological ordering of the requested flags fails,
    [EvaluateV2] returns that error and a nil variant map; nothing is
    evaluated or tracked, and the client, its snapshot included, is as
    before the call. *)
Theorem EvaluateV2_ordering_error (now : Z) (c : Client) (u : User)
    (flagKeys : list string) (e : error) :
  topologicalSort (flagConfigStorage c) flagKeys = inl e →
  ∃ u', EvaluateV2 now c u flagKeys = (None, Some e, u', c) ∧
        flagConfigStorage (EvaluateV2 now c u flagKeys).2
          = flagConfigStorage c.
Proof.
  intros Hs. unfold EvaluateV2. simpl. rewrite Hs. eauto.
Qed.

Lemma keepVariant_spec (key : string) (v : Variant)
    (rs : gmap string Variant) :
  keepVariant key v rs
  = if negb (marksDefault v) && marksDeployed v then <[key := v]> rs else rs.
Proof.
  unfold keepVariant, metadataBool, marksDefault, marksDeployed.
  destruct (VMetadata v !! "default") as [[]|];
    destruct (VMetadata v !! "deployed") as [[]|]; done.
Qed.

Lemma keepVariant_fold (variants : gmap string Variant) (k : string)
    (v : Variant) :
  map_fold keepVariant ∅ variants !! k = Some v ↔
  variants !! k = Some v ∧ marksDefault v = false ∧ marksDeployed v = true.
Proof.
  revert k v.
  apply (map_fold_weak_ind (λ rs m, ∀ k v,
    rs !! k = Some v ↔
    m !! k = Some v ∧ marksDefault v = false ∧ marksDeployed v = true)).
  - intros k v. rewrite !lookup_empty. naive_solver.
  - intros i x m rs Hi IH k v. rewrite keepVariant_spec.
    destruct (decide (i = k)) as [->|Hne].
    + rewrite lookup_insert_eq.
      destruct (marksDefault x) eqn:Hd, (marksDeployed x) eqn:Hp; simpl;
        rewrite ?lookup_insert_eq, ?IH, ?Hi;
        (split; intros Hx); destruct_and?; simplify_eq; split_and?;
        congruence.
    + rewrite (lookup_insert_ne m) by done.
      destruct (negb _ && _); try rewrite lookup_insert_ne by done;
        apply IH.
Qed.

(** [EvaluateV2] returns either an error and no map, or a map and no
    error. *)
Lemma EvaluateV2_result (now : Z) (c : Client) (u : User)
    (flagKeys : list string) :
  (∃ e u' c', EvaluateV2 now c u flagKeys = (None, Some e, u', c')) ∨
  (∃ variants u' c', EvaluateV2 now c u flagKeys
                     = (Some variants, None, u', c')).
Proof.
  unfold EvaluateV2. simpl. destruct (topologicalSort _ _); eauto 10.
Qed.

(** C9.  When [EvaluateV2] succeeds with a variant map, [Evaluate] succeeds
    with exactly the variants of that map that are not marked default and
    are marked deployed; when [EvaluateV2] fails, [Evaluate] returns the same
    error and no variants.  The user and the client end up as [EvaluateV2]
    leaves them. *)
Theorem Evaluate_filters_EvaluateV2 (now : Z) (c : Client) (u : User)
    (flagKeys : list string) (vs : option (gmap string Variant))
    (err : option error) (u' : User) (c' : Client) :
  EvaluateV2 now c u flagKeys = (vs, err, u', c') →
  match err with
  | Some e => vs = None ∧ Evaluate now c u flagKeys = (None, Some e, u', c')
  | None =>
      ∃ variants results,
        vs = Some variants ∧
        Evaluate now c u flagKeys = (Some results, None, u', c') ∧
        ∀ k v, results !! k = Some v ↔
               variants !! k = Some v ∧
               marksDefault v = false ∧ marksDeployed v = true
  end.
Proof.
  intros Hv. unfold Evaluate. rewrite Hv.
  destruct (EvaluateV2_result now c u flagKeys)
    as [(e & u1 & c1 & He)|(variants & u1 & c1 & He)];
    rewrite He in Hv; injection Hv as <- <- <- <-.
  - done.
  - exists variants, (map_fold keepVariant ∅ variants).
    split_and!; [done..|]. apply keepVariant_fold.
Qed.

End evaluate_facts.

Lemma EvaluateV2_ordering_error_witness :
  ∃ u', EvaluateV2 (H0 := Demo.demo_Collaborators) 0 Demo.broken_client
          Demo.demo_user ["checkout-button"; "holdout"]
        = (None, Some "missing dependency holdout", u', Demo.broken_client) ∧
        flagConfigStorage
          (EvaluateV2 (H0 := Demo.demo_Collaborators) 0 Demo.broken_client
             Demo.demo_user ["checkout-button"; "holdout"]).2
        = flagConfigStorage Demo.broken_client.
Proof.
  apply (EvaluateV2_ordering_error (H0 := Demo.demo_Collaborators)).
  vm_compute. reflexivity.
Defined.

Lemma Evaluate_filters_EvaluateV2_witness :
  ∃ variants results u' c',
    EvaluateV2 (H0 := Demo.demo_Collaborators) 0 Demo.demo_client
      Demo.demo_user ["checkout-button"; "holdout"]
      = (Some variants, None, u', c') ∧
    Evaluate (H0 := Demo.demo_Collaborators) 0 Demo.demo_client
      Demo.demo_user ["checkout-button"; "holdout"]
      = (Some results, None, u', c') ∧
    ∀ k v, results !! k = Some v ↔
           variants !! k = Some v ∧
           marksDefault v = false ∧ marksDeployed v = true.
Proof.
  pose proof (Evaluate_filters_EvaluateV2 (H0 := Demo.demo_Collaborators) 0
                Demo.demo_client Demo.demo_user ["checkout-button"; "holdout"]
                _ _ _ _ eq_refl) as Hthm.
  simpl in Hthm. destruct Hthm as (variants & results & Hv & He & Hiff).
  exists variants, results. eexists _, _.
  split; [|split; [exact He|exact Hiff]].
  rewrite <- Hv. reflexivity.
Defined.

Example Evaluate_demo :
  ∃ results u' c',
    Evaluate (H0 := Demo.demo_Collaborators) 0 Demo.demo_client
      Demo.demo_user ["checkout-button"; "holdout"]
      = (Some results, None, u', c') ∧
    dom results =@{gset string} {[ "checkout-button" ]}.
Proof. eexists _, _, _. split; [reflexivity|]. by vm_compute. Qed.

(** ** enrichUser *)

Section enrich_facts.
Context `{Collaborators}.

Lemma enrichGroup_fields (grouped : gmap string (gset string))
    (groupType : string) (names : list string) (u : User) :
  UserId (enrichGroup grouped groupType names u) = UserId u ∧
  DeviceId (enrichGroup grouped groupType names u) = DeviceId u ∧
  Groups (enrichGroup grouped groupType names u) = Groups u ∧
  CohortIds (enrichGroup grouped groupType names u) = CohortIds u.
Proof.
  unfold enrichGroup. destruct (decide _); [done|].
  by destruct (grouped !! groupType).
Qed.

Lemma enrichGroup_lookup (grouped : gmap string (gset string))
    (groupType gt : string) (names : list string) (u : User) :
  GroupCohortIds (enrichGroup grouped groupType names u) !! gt
  = if decide (groupType = gt)
    then groupEntry grouped gt (Some names) (GroupCohortIds u !! gt)
    else GroupCohortIds u !! gt.
Proof.
  unfold enrichGroup, groupEntry.
  destruct (decide (groupType = gt)) as [->|Hne].
  - destruct names as [|n names]; simpl.
    + done.
    + destruct (decide (n = "")); [done|].
      destruct (grouped !! gt); [|done]. simpl. by rewrite lookup_insert_eq.
  - destruct (decide _); [done|].
    destruct (grouped !! groupType); [|done]. simpl.
    by rewrite lookup_insert_ne.
Qed.

Lemma enrichGroups_fold (grouped : gmap string (gset string)) (u : User)
    (groups : gmap string (list string)) :
  let u' := map_fold (enrichGroup grouped) u groups in
  UserId u' = UserId u ∧ DeviceId u' = DeviceId u ∧
  Groups u' = Groups u ∧ CohortIds u' = CohortIds u ∧
  ∀ gt, GroupCohortIds u' !! gt
        = groupEntry grouped gt (groups !! gt) (GroupCohortIds u !! gt).
Proof.
  simpl.
  apply (map_fold_weak_ind (λ u' m,
    UserId u' = UserId u ∧ DeviceId u' = DeviceId u ∧
    Groups u' = Groups u ∧ CohortIds u' = CohortIds u ∧
    ∀ gt, GroupCohortIds u' !! gt
          = groupEntry grouped gt (m !! gt) (GroupCohortIds u !! gt))).
  - by split_and!.
  - intros i names m acc Hi (Hu & Hd & Hg & Hc & IH).
    destruct (enrichGroup_fields grouped i names acc) as (-> & -> & -> & ->).
    split_and!; try done. intros gt. rewrite enrichGroup_lookup.
    destruct (decide (i = gt)) as [->|Hne].
    + rewrite lookup_insert_eq, IH, Hi. done.
    + by rewrite lookup_insert_ne, IH.
Qed.

(** C7.  [enrichUser] returns no error and changes nothing of the user but
    the two enrichment outputs.  The user-level cohort ids are replaced by
    the store's answer exactly when the flags reference a non-empty set of
    user-level cohorts and the user id is not empty, and are left as they
    were otherwise.  Under each group type the result is determined by the
    first group name of that type alone: if the user has no group of that
    type, or the list of names is empty, or the first name is empty, or the
    flags reference no cohort of that type, the entry is as before;
    otherwise the store's answer for (group type, first name) is recorded
    under the first name. *)
Theorem enrichUser_cohorts (u : User) (flagConfigs : gmap string Flag) :
  let grouped := groupedCohortIDsOf flagConfigs in
  let u' := (enrichUser u flagConfigs).1 in
  (enrichUser u flagConfigs).2 = None ∧
  UserId u' = UserId u ∧ DeviceId u' = DeviceId u ∧ Groups u' = Groups u ∧
  (∀ ids, grouped !! userGroupType = Some ids → ids ≠ ∅ → UserId u ≠ "" →
          CohortIds u' = GetCohortsForUser (UserId u) ids) ∧
  (grouped !! userGroupType = None ∨ grouped !! userGroupType = Some ∅ ∨
   UserId u = "" → CohortIds u' = CohortIds u) ∧
  ∀ groupType,
    GroupCohortIds u' !! groupType
    = groupEntry grouped groupType (Groups u ≫= (.!! groupType))
                 (GroupCohortIds u !! groupType).
Proof.
  intros grouped u'. subst u'. unfold enrichUser. simpl.
  fold (groupedCohortIDsOf flagConfigs). fold grouped.
  set (u1 := match grouped !! userGroupType with
             | Some cohortIDs => _
             | None => u
             end).
  assert (UserId u1 = UserId u ∧ DeviceId u1 = DeviceId u ∧
          Groups u1 = Groups u ∧ GroupCohortIds u1 = GroupCohortIds u)
    as (Hu1 & Hd1 & Hg1 & Hgc1).
  { subst u1. destruct (grouped !! userGroupType); [|done].
    by destruct (_ && _). }
  assert ((∀ ids, grouped !! userGroupType = Some ids → ids ≠ ∅ →
                  UserId u ≠ "" →
                  CohortIds u1 = GetCohortsForUser (UserId u) ids) ∧
          (grouped !! userGroupType = None ∨
           grouped !! userGroupType = Some ∅ ∨ UserId u = "" →
           CohortIds u1 = CohortIds u)) as [Hset Hkeep].
  { subst u1. split.
    - intros ids -> Hne Hid.
      rewrite (bool_decide_eq_true_2 (0 < size ids)),
        (bool_decide_eq_true_2 (UserId u ≠ "")); [done|done|].
      assert (size ids ≠ 0); [|lia].
      apply size_non_empty_iff. by intros ?%leibniz_equiv.
    - intros [->|[->|Hid]]; [done|done|].
      destruct (grouped !! userGroupType); [|done].
      rewrite (bool_decide_eq_false_2 (UserId u ≠ "")) by naive_solver.
      by rewrite andb_false_r. }
  rewrite Hg1. destruct (Groups u) as [groups|] eqn:Hgr; simpl.
  - destruct (enrichGroups_fold grouped u1 groups)
      as (-> & -> & -> & -> & Hl).
    split_and!; try done. intros gt. by rewrite Hl, Hgc1.
  - split_and!; try done. intros gt. by rewrite Hgc1.
Qed.

End enrich_facts.

Lemma enrichUser_cohorts_witness :
  CohortIds (enrichUser (H0 := Demo.demo_Collaborators) Demo.demo_user
               (flagConfigStorage Demo.demo_client)).1
  = Demo.demo_members "user-1" {[ "cohort-beta" ]} ∧
  GroupCohortIds (enrichUser (H0 := Demo.demo_Collaborators) Demo.demo_user
                    (flagConfigStorage Demo.demo_client)).1 !! "org"
  = Some {[ "acme" := Demo.demo_members "acme" {[ "cohort-orgs" ]} ]}.
Proof.
  destruct (enrichUser_cohorts (H0 := Demo.demo_Collaborators) Demo.demo_user
              (flagConfigStorage Demo.demo_client))
    as (_ & _ & _ & _ & Hset & _ & Hgrp).
  split.
  - apply (Hset {[ "cohort-beta" ]}).
    + vm_compute. reflexivity.
    + apply non_empty_singleton_L.
    + discriminate.
  - rewrite Hgrp. vm_compute. reflexivity.
Defined.

(** ** FlagMetadata *)

Section metadata_facts.
Context `{Helpers}.

(** The copy loop rebuilds the map it ranges over. *)
Lemma copy_loop (m : gmap string Value) :
  map_fold (λ k v metadata, <[k := v]> metadata) ∅ m = m.
Proof.
  apply (map_fold_weak_ind (λ r m, r = m)); [done|].
  by intros i x m' r _ ->.
Qed.

(** C10.  [FlagMetadata] returns nil, and changes nothing, when the store
    has no flag under the key.  Otherwise it returns a reference to a newly
    allocated map, distinct from every map reachable from the snapshot, whose
    content equals the content of the stored flag's metadata; the snapshot
    and all other maps are as before, and an assignment or a deletion
    through the returned reference leaves the metadata of every stored flag
    as it was. *)
Theorem FlagMetadata_fresh_copy (c : Client) (flagKey : string) :
  heap_closed c →
  match flagConfigStorage c !! flagKey with
  | None => FlagMetadata c flagKey = (None, c)
  | Some f =>
      ∃ l c',
        FlagMetadata c flagKey = (Some l, c') ∧
        heap c !! l = None ∧
        deref (heap c') (Some l) = deref (heap c) (Metadata f) ∧
        flagConfigStorage c' = flagConfigStorage c ∧
        (∀ l0, l0 ≠ l → heap c' !! l0 = heap c !! l0) ∧
        ∀ key g, flagConfigStorage c' !! key = Some g →
          Metadata g ≠ Some l ∧
          deref (heap c') (Metadata g) = deref (heap c) (Metadata g) ∧
          ∀ k v,
            deref (map_store l k v (heap c')) (Metadata g)
              = deref (heap c) (Metadata g) ∧
            deref (map_delete l k (heap c')) (Metadata g)
              = deref (heap c) (Metadata g)
  end.
Proof.
  intros Hclosed. unfold FlagMetadata, GetFlagConfig.
  destruct (flagConfigStorage c !! flagKey) as [f|] eqn:Hf; [|done].
  set (l := fresh (dom (heap c))).
  assert (heap c !! l = None) as Hfresh.
  { apply not_elem_of_dom. apply is_fresh. }
  eexists l, _. split; [done|]. simpl. split_and!.
  - done.
  - by rewrite lookup_insert_eq, copy_loop.
  - done.
  - intros l0 Hne. by rewrite lookup_insert_ne.
  - intros key g Hg.
    assert (Metadata g ≠ Some l) as Hne.
    { intros Hm. destruct (Hclosed key g l Hg Hm) as [? Hl]. congruence. }
    assert (∀ m h, (∀ l0, l0 ≠ l → h !! l0 = heap c !! l0) →
                   deref (<[l := m]> h) (Metadata g)
                   = deref (heap c) (Metadata g)) as Hframe.
    { intros m h Hh. destruct (Metadata g) as [l0|]; [|done]. simpl.
      assert (l0 ≠ l) by congruence.
      rewrite lookup_insert_ne by done.
      destruct (decide (l0 = l)); [done|]. by rewrite Hh. }
    split_and!; [done|by apply Hframe|].
    intros k v. unfold map_store, map_delete. split; apply Hframe;
      intros l0 Hl0; by rewrite lookup_insert_ne.
Qed.

End metadata_facts.

Lemma FlagMetadata_fresh_copy_witness :
  ∃ l c',
    FlagMetadata Demo.demo_client "checkout-button" = (Some l, c') ∧
    heap Demo.demo_client !! l = None ∧
    deref (heap c') (Some l)
      = {[ "deployed" := VBool true; "flagType" := VString "experiment" ]} ∧
    deref (map_store l "deployed" (VBool false) (heap c'))
          (Metadata Demo.checkout_button)
      = {[ "deployed" := VBool true; "flagType" := VString "experiment" ]}.
Proof.
  assert (heap_closed Demo.demo_client) as Hclosed.
  { intros k f l Hk Hl. unfold Demo.demo_client in Hk. simpl in Hk.
    apply lookup_insert_Some in Hk as [[_ <-]|[_ Hk]].
    - injection Hl as <-. by eexists.
    - apply lookup_singleton_Some in Hk as [_ <-]. discriminate. }
  pose proof (FlagMetadata_fresh_copy Demo.demo_client "checkout-button"
                Hclosed) as Hthm.
  change (flagConfigStorage Demo.demo_client !! "checkout-button")
    with (Some Demo.checkout_button) in Hthm.
  destruct Hthm as (l & c' & Hfm & Hfresh & Hcopy & Hst & _ & Hall).
  exists l, c'. split; [exact Hfm|]. split; [exact Hfresh|].
  split; [exact Hcopy|].
  destruct (Hall "checkout-button" Demo.checkout_button) as (_ & _ & Hmut).
  - rewrite Hst. reflexivity.
  - exact (proj1 (Hmut "deployed" (VBool false))).
Defined.

Example FlagMetadata_absent :
  FlagMetadata Demo.demo_client "no-such-flag" = (None, Demo.demo_client).
Proof. reflexivity. Qed.

(** ** Further properties of the client *)

Section client_more.
Context `{Collaborators}.

(** X14.  [contains] decides membership in the slice. *)
Theorem contains_spec (s : list string) (e : string) :
  contains s e = true ↔ e ∈ s.
Proof.
  induction s as [|a s IH]; simpl.
  - split; [done|]. by intros ?%not_elem_of_nil.
  - destruct (decide (a = e)) as [->|Hne].
    + split; [intros _; apply list_elem_of_here|done].
    + rewrite IH. split; [apply list_elem_of_further|].
      intros [?|?]%elem_of_cons; [congruence|done].
Qed.

Lemma toVariants_lookup (rs : gmap string EngineVariant) (k : string) :
  toVariants rs !! k = toVariant <$> rs !! k.
Proof.
  unfold toVariants. revert k.
  apply (map_fold_weak_ind (λ variants m, ∀ k,
    variants !! k = toVariant <$> m !! k)).
  - intros k. by rewrite !lookup_empty.
  - intros i x m variants Hi IH k. destruct (decide (i = k)) as [->|Hne].
    + by rewrite !lookup_insert_eq.
    + by rewrite !lookup_insert_ne, IH.
Qed.

(** X15.  When the ordering succeeds [EvaluateV2] returns no error and one variant
    per result of the engine, which was run on the context of the enriched
    user and on the ordered flags; each variant carries the key, payload and
    metadata of its result and the result's value coerced to a string. *)
Theorem EvaluateV2_success_variants (now : Z) (c : Client) (u : User)
    (flagKeys : list string) (sortedFlags : list Flag) :
  topologicalSort (flagConfigStorage c) flagKeys = inr sortedFlags →
  ∃ variants c',
    EvaluateV2 now c u flagKeys
      = (Some variants, None, (enrichUser u (flagConfigStorage c)).1, c') ∧
    ∀ k, variants !! k
         = toVariant <$>
           engine_Evaluate
             (UserToContext (enrichUser u (flagConfigStorage c)).1)
             sortedFlags !! k.
Proof.
  intros Hs. unfold EvaluateV2. simpl. rewrite Hs.
  eexists _, _. split; [done|]. intros k. apply toVariants_lookup.
Qed.

(** X16.  [EvaluateV2] hands at most one event to the analytics client: none
    without an assignment service, none when the ordering fails, and
    otherwise the event of this call's assignment if the filter lets it
    through; events handed over before stay where they are. *)
Theorem EvaluateV2_tracking (now : Z) (c : Client) (u : User)
    (flagKeys : list string) :
  match assignmentService c with
  | None => (EvaluateV2 now c u flagKeys).2 = c
  | Some svc =>
      ∃ svc', assignmentService (EvaluateV2 now c u flagKeys).2 = Some svc' ∧
        match EvaluateV2 now c u flagKeys with
        | (Some variants, _, u', _) =>
            let a := newAssignment now u' variants in
            Filter svc' = (shouldTrack (Filter svc) a).2 ∧
            Amplitude svc'
            = if (shouldTrack (Filter svc) a).1
              then Amplitude svc ++ [toEvent a] else Amplitude svc
        | (None, _, _, _) => svc' = svc
        end
  end.
Proof.
  unfold EvaluateV2. simpl.
  destruct (topologicalSort _ _) as [e|sorted]; simpl.
  - destruct (assignmentService c) eqn:Hsvc; [|done]. eauto.
  - destruct (assignmentService c) as [svc|] eqn:Hsvc; [|done]. simpl.
    eexists. split; [done|]. unfold Track.
    by destruct (shouldTrack _ _).
Qed.

(** X17.  Neither [EvaluateV2] nor [Evaluate] writes to the flag snapshot or to
    the metadata of the flags, and both leave the caller's user enriched, on
    every path, the failing ones included. *)
Theorem evaluation_frame (now : Z) (c : Client) (u : User)
    (flagKeys : list string) :
  (flagConfigStorage (EvaluateV2 now c u flagKeys).2 = flagConfigStorage c ∧
   heap (EvaluateV2 now c u flagKeys).2 = heap c ∧
   (EvaluateV2 now c u flagKeys).1.2 = (enrichUser u (flagConfigStorage c)).1)
  ∧
  (flagConfigStorage (Evaluate now c u flagKeys).2 = flagConfigStorage c ∧
   heap (Evaluate now c u flagKeys).2 = heap c ∧
   (Evaluate now c u flagKeys).1.2 = (enrichUser u (flagConfigStorage c)).1).
Proof.
  destruct (EvaluateV2_snapshot now c u flagKeys) as [Hs Hh].
  assert ((EvaluateV2 now c u flagKeys).1.2
          = (enrichUser u (flagConfigStorage c)).1) as Hu.
  { unfold EvaluateV2. simpl. by destruct (topologicalSort _ _). }
  split; [done|]. unfold Evaluate.
  destruct (EvaluateV2 now c u flagKeys) as [[[vs err] u'] c'].
  simpl in *. by destruct err.
Qed.

Lemma User_eq (u1 u2 : User) :
  UserId u1 = UserId u2 → DeviceId u1 = DeviceId u2 →
  Groups u1 = Groups u2 → CohortIds u1 = CohortIds u2 →
  GroupCohortIds u1 = GroupCohortIds u2 → u1 = u2.
Proof. destruct u1, u2. simpl. by intros -> -> -> -> ->. Qed.

(** The fields of the user after [enrichUser]. *)
Lemma enrichUser_fields (u : User) (flagConfigs : gmap string Flag) :
  let grouped := groupedCohortIDsOf flagConfigs in
  let u' := (enrichUser u flagConfigs).1 in
  UserId u' = UserId u ∧ DeviceId u' = DeviceId u ∧ Groups u' = Groups u ∧
  CohortIds u' = userCohortIds grouped u ∧
  ∀ groupType,
    GroupCohortIds u' !! groupType
    = groupEntry grouped groupType (Groups u ≫= (.!! groupType))
                 (GroupCohortIds u !! groupType).
Proof.
  intros grouped u'. subst u'. unfold enrichUser. simpl.
  fold (groupedCohortIDsOf flagConfigs). fold grouped.
  set (u1 := match grouped !! userGroupType with
             | Some cohortIDs => _
             | None => u
             end).
  assert (UserId u1 = UserId u ∧ DeviceId u1 = DeviceId u ∧
          Groups u1 = Groups u ∧ GroupCohortIds u1 = GroupCohortIds u ∧
          CohortIds u1 = userCohortIds grouped u)
    as (Hu1 & Hd1 & Hg1 & Hgc1 & Hc1).
  { subst u1. unfold userCohortIds.
    destruct (grouped !! userGroupType); [|done]. by destruct (_ && _). }
  rewrite Hg1. destruct (Groups u) as [groups|] eqn:Hgr; simpl.
  - destruct (enrichGroups_fold grouped u1 groups)
      as (-> & -> & -> & -> & Hl).
    split_and!; try done. intros gt. by rewrite Hl, Hgc1.
  - split_and!; try done. intros gt. by rewrite Hgc1.
Qed.

Lemma groupEntry_idem (grouped : gmap string (gset string))
    (groupType : string) (names : option (list string))
    (old : option (gmap string (gset string))) :
  groupEntry grouped groupType names
    (groupEntry grouped groupType names old)
  = groupEntry grouped groupType names old.
Proof.
  unfold groupEntry. destruct names as [[|n names]|]; [done| |done].
  destruct (decide (n = "")); [done|].
  destruct (grouped !! groupType); [|done]. simpl.
  by rewrite insert_insert_eq.
Qed.

(** X18.  Enriching a user that is already enriched changes nothing. *)
Theorem enrichUser_idempotent (u : User) (flagConfigs : gmap string Flag) :
  (enrichUser (enrichUser u flagConfigs).1 flagConfigs).1
  = (enrichUser u flagConfigs).1.
Proof.
  destruct (enrichUser_fields u flagConfigs) as (Hu & Hd & Hg & Hc & Hl).
  destruct (enrichUser_fields (enrichUser u flagConfigs).1 flagConfigs)
    as (Hu' & Hd' & Hg' & Hc' & Hl').
  apply User_eq; try congruence.
  - rewrite Hc'. unfold userCohortIds at 1. rewrite Hu, !Hc.
    unfold userCohortIds.
    destruct (groupedCohortIDsOf flagConfigs !! userGroupType); [|done].
    by destruct (_ && _).
  - apply map_eq. intros gt. rewrite Hl', Hg, Hl. apply groupEntry_idem.
Qed.

(** X19.  When the flags of the snapshot reference no cohort at all, [enrichUser]
    leaves the user as it is and asks the cohort store nothing. *)
Theorem enrichUser_no_cohorts (u : User) (flagConfigs : gmap string Flag) :
  groupedCohortIDsOf flagConfigs = ∅ →
  enrichUser u flagConfigs = (u, None).
Proof.
  intros Hg.
  destruct (enrichUser_fields u flagConfigs) as (Hu & Hd & Hgr & Hc & Hl).
  rewrite Hg in Hc, Hl.
  assert ((enrichUser u flagConfigs).1 = u) as Heq.
  { apply User_eq; try done.
    apply map_eq. intros gt. rewrite Hl. unfold groupEntry.
    rewrite lookup_empty. destruct (Groups u ≫= _) as [[|n ?]|]; try done.
    by destruct (decide _). }
  destruct (enrichUser u flagConfigs) as [u' e] eqn:He.
  simpl in Heq. subst u'. f_equal.
  pose proof (enrichUser_nil_error u flagConfigs) as Hn.
  by rewrite He in Hn.
Qed.

End client_more.

Section metadata_more.
Context `{Helpers}.

(** X20.  Two calls of [FlagMetadata] for the same flag give two different maps
    with the content of the stored metadata, and writing to the first leaves
    the second as it is. *)
Theorem FlagMetadata_two_copies (c : Client) (flagKey : string) (f : Flag) :
  heap_closed c → flagConfigStorage c !! flagKey = Some f →
  ∃ l1 c1 l2 c2,
    FlagMetadata c flagKey = (Some l1, c1) ∧
    FlagMetadata c1 flagKey = (Some l2, c2) ∧
    l1 ≠ l2 ∧
    deref (heap c2) (Some l1) = deref (heap c) (Metadata f) ∧
    deref (heap c2) (Some l2) = deref (heap c) (Metadata f) ∧
    ∀ k v, deref (map_store l1 k v (heap c2)) (Some l2)
           = deref (heap c) (Metadata f).
Proof.
  intros Hclosed Hf.
  eexists _, _, _, _.
  split; [unfold FlagMetadata, GetFlagConfig; by rewrite Hf|].
  split; [unfold FlagMetadata, GetFlagConfig; simpl; by rewrite Hf|].
  simpl. rewrite !copy_loop.
  set (l1 := fresh (dom (heap c))).
  set (m := deref (heap c) (Metadata f)).
  assert (heap c !! l1 = None) as Hfresh1
    by (apply not_elem_of_dom, is_fresh).
  assert (deref (<[l1 := m]> (heap c)) (Metadata f) = m) as Hsame.
  { subst m. destruct (Metadata f) as [l0|] eqn:Hl0; [|done]. simpl.
    destruct (Hclosed flagKey f l0 Hf Hl0) as [? Hl].
    rewrite lookup_insert_ne; [done|]. congruence. }
  rewrite Hsame.
  set (l2 := fresh (dom (<[l1 := m]> (heap c)))).
  assert (<[l1 := m]> (heap c) !! l2 = None) as Hfresh2
    by (apply not_elem_of_dom, is_fresh).
  assert (l1 ≠ l2) as Hne.
  { intros Heq. rewrite <- Heq, lookup_insert_eq in Hfresh2. done. }
  split_and!; [done| | |].
  - by rewrite lookup_insert_ne, lookup_insert_eq.
  - by rewrite lookup_insert_eq.
  - intros k v. unfold map_store.
    by rewrite lookup_insert_ne, lookup_insert_eq.
Qed.

End metadata_more.

Section registry_facts.
Context {C Config : Type} (construct : string → Config → C).

(** X21.  [Initialize] makes one client per API key: a call that returns leaves
    the mutex unlocked and the returned client registered under the key,
    touches no other key, returns the registered client unchanged if there
    was one, and every later call with that key returns the same client
    whatever config it is given. *)
Theorem Initialize_once_per_key (apiKey : string) (config : Config)
    (reg reg1 : Registry C) (client : C) :
  Initialize construct apiKey config reg = Returned client reg1 →
  initMutex reg1 = false ∧
  clients reg1 !! apiKey = Some client ∧
  (∀ k, k ≠ apiKey → clients reg1 !! k = clients reg !! k) ∧
  (∀ c0, clients reg !! apiKey = Some c0 → client = c0 ∧ reg1 = reg) ∧
  ∀ config', Initialize construct apiKey config' reg1 = Returned client reg1.
Proof.
  unfold Initialize. destruct (initMutex reg) eqn:Hm; [done|].
  destruct (clients reg !! apiKey) as [c0|] eqn:Hc.
  - intros [= <- <-]. rewrite Hm, Hc. by split_and!; [..|intros ? [= <-]|].
  - destruct (decide (apiKey = "")); [done|]. intros [= <- <-]. simpl.
    rewrite lookup_insert_eq. split_and!; try done.
    intros k Hk. by rewrite lookup_insert_ne.
Qed.

(** X22.  The empty API key is never registered, and [Initialize] with it panics
    while it holds [initMutex]: the registry keeps its clients, but every
    later [Initialize] waits for the mutex for ever. *)
Theorem Initialize_empty_key (config : Config) (reg : Registry C) :
  initMutex reg = false → clients reg !! "" = None →
  (∀ k cfg c reg1, Initialize construct k cfg reg = Returned c reg1 →
                   clients reg1 !! "" = None) ∧
  ∃ reg', Initialize construct "" config reg
            = InitPanic "api key must be set" reg' ∧
          clients reg' = clients reg ∧
          ∀ k cfg, Initialize construct k cfg reg' = InitBlocked.
Proof.
  intros Hm He. split.
  - intros k cfg c reg1. unfold Initialize. rewrite Hm.
    destruct (clients reg !! k) eqn:Hk; [by intros [= _ <-]|].
    destruct (decide (k = "")); [done|]. intros [= _ <-]. simpl.
    by rewrite lookup_insert_ne.
  - unfold Initialize at 1. rewrite Hm, He. simpl. eexists. by split_and!.
Qed.

End registry_facts.

Section extract_facts.

Lemma extractFlags_snoc (l : list Value) (v : Value) :
  extractFlags (l ++ [v])
  = match flagKeyOf v with
    | Some k => <[k := v]> (extractFlags l)
    | None => extractFlags l
    end.
Proof. unfold extractFlags. by rewrite foldl_snoc. Qed.

(** X23.  The flags [doFlags] returns: every entry is an element of the decoded
    array that is an object with a string "flagKey", stored under that key;
    every such key is present; and the elements that are not such objects
    are passed over without any effect. *)
Theorem extractFlags_spec (flagsArray : list Value) :
  (∀ k v, extractFlags flagsArray !! k = Some v →
          v ∈ flagsArray ∧ flagKeyOf v = Some k) ∧
  (∀ k, is_Some (extractFlags flagsArray !! k) ↔
        ∃ v, v ∈ flagsArray ∧ flagKeyOf v = Some k) ∧
  extractFlags flagsArray
  = extractFlags (filter (λ v, is_Some (flagKeyOf v)) flagsArray).
Proof.
  induction flagsArray as [|v l (IH1 & IH2 & IH3)] using rev_ind.
  - split_and!; [done| |done]. intros k. split.
    + by intros [? ?].
    + by intros (v & ?%not_elem_of_nil & _).
  - rewrite filter_app, extractFlags_snoc.
    destruct (flagKeyOf v) as [kv|] eqn:Hv.
    + rewrite filter_cons_True by (by rewrite Hv). simpl.
      rewrite extractFlags_snoc, Hv, <- IH3. split_and!; [| |done].
      * intros k w. destruct (decide (kv = k)) as [->|Hne].
        -- rewrite lookup_insert_eq. intros [= <-]. set_solver.
        -- rewrite lookup_insert_ne by done. intros [? ?]%IH1. set_solver.
      * intros k. destruct (decide (kv = k)) as [->|Hne].
        -- rewrite lookup_insert_eq. split; [|by eexists].
           intros _. exists v. set_solver.
        -- rewrite lookup_insert_ne, IH2 by done. split.
           ++ intros (w & ? & ?). exists w. set_solver.
           ++ intros (w & [Hw|Hw]%elem_of_app & Hk); [by exists w|].
              apply list_elem_of_singleton in Hw as ->. congruence.
    + rewrite filter_cons_False by (rewrite Hv; by intros [? ?]). simpl.
      rewrite app_nil_r. split_and!; [| |done].
      * intros k w [? ?]%IH1. set_solver.
      * intros k. rewrite IH2. split.
        -- intros (w & ? & ?). exists w. set_solver.
        -- intros (w & [Hw|Hw]%elem_of_app & Hk); [by exists w|].
           apply list_elem_of_singleton in Hw as ->. congruence.
Qed.

End extract_facts.

Lemma EvaluateV2_success_variants_witness :
  ∃ variants c',
    EvaluateV2 (H0 := Demo.demo_Collaborators) 0 Demo.demo_client
      Demo.demo_user ["checkout-button"; "holdout"]
      = (Some variants, None,
         (enrichUser (H0 := Demo.demo_Collaborators) Demo.demo_user
            (flagConfigStorage Demo.demo_client)).1, c') ∧
    ∀ k, variants !! k
         = toVariant (H0 := Demo.demo_Collaborators) <$>
           Demo.demo_engine [Demo.holdout; Demo.checkout_button] !! k.
Proof.
  apply (EvaluateV2_success_variants (H0 := Demo.demo_Collaborators) 0
           Demo.demo_client Demo.demo_user ["checkout-button"; "holdout"]
           [Demo.holdout; Demo.checkout_button]).
  vm_compute. reflexivity.
Defined.

Lemma enrichUser_no_cohorts_witness :
  enrichUser (H0 := Demo.demo_Collaborators) Demo.demo_user
    {[ "holdout" := Demo.holdout ]}
  = (Demo.demo_user, None).
Proof.
  apply (enrichUser_no_cohorts (H0 := Demo.demo_Collaborators)).
  vm_compute. reflexivity.
Defined.

Lemma FlagMetadata_two_copies_witness :
  ∃ l1 c1 l2 c2,
    FlagMetadata Demo.demo_client "checkout-button" = (Some l1, c1) ∧
    FlagMetadata c1 "checkout-button" = (Some l2, c2) ∧
    l1 ≠ l2 ∧
    deref (heap c2) (Some l1)
      = deref (heap Demo.demo_client) (Metadata Demo.checkout_button) ∧
    deref (heap c2) (Some l2)
      = deref (heap Demo.demo_client) (Metadata Demo.checkout_button) ∧
    ∀ k v, deref (map_store l1 k v (heap c2)) (Some l2)
           = deref (heap Demo.demo_client) (Metadata Demo.checkout_button).
Proof.
  apply (FlagMetadata_two_copies Demo.demo_client "checkout-button"
           Demo.checkout_button).
  - intros k f l Hk Hl. unfold Demo.demo_client in Hk. simpl in Hk.
    apply lookup_insert_Some in Hk as [[_ <-]|[_ Hk]].
    + injection Hl as <-. by eexists.
    + apply lookup_singleton_Some in Hk as [_ <-]. discriminate.
  - reflexivity.
Defined.

Lemma Initialize_once_per_key_witness :
  initMutex {| clients := <["key-2" := ("key-2", 5)]>
                            (clients Demo.demo_registry);
               initMutex := false |} = false ∧
  clients {| clients := <["key-2" := ("key-2", 5)]>
                          (clients Demo.demo_registry);
             initMutex := false |} !! "key-2" = Some ("key-2", 5) ∧
  (∀ k, k ≠ "key-2" →
        clients {| clients := <["key-2" := ("key-2", 5)]>
                                (clients Demo.demo_registry);
                   initMutex := false |} !! k
        = clients Demo.demo_registry !! k) ∧
  (∀ c0, clients Demo.demo_registry !! "key-2" = Some c0 →
         ("key-2", 5) = c0 ∧
         {| clients := <["key-2" := ("key-2", 5)]>
                         (clients Demo.demo_registry);
            initMutex := false |} = Demo.demo_registry) ∧
  ∀ config',
    Initialize Demo.demo_construct "key-2" config'
      {| clients := <["key-2" := ("key-2", 5)]> (clients Demo.demo_registry);
         initMutex := false |}
    = Returned ("key-2", 5)
        {| clients := <["key-2" := ("key-2", 5)]>
                        (clients Demo.demo_registry);
           initMutex := false |}.
Proof.
  apply (Initialize_once_per_key Demo.demo_construct "key-2" 5
           Demo.demo_registry).
  reflexivity.
Defined.

Lemma Initialize_empty_key_witness :
  (∀ k cfg c reg1,
     Initialize Demo.demo_construct k cfg Demo.demo_registry
       = Returned c reg1 →
     clients reg1 !! "" = None) ∧
  ∃ reg', Initialize Demo.demo_construct "" 0 Demo.demo_registry
            = InitPanic "api key must be set" reg' ∧
          clients reg' = clients Demo.demo_registry ∧
          ∀ k cfg, Initialize Demo.demo_construct k cfg reg' = InitBlocked.
Proof.
  apply (Initialize_empty_key Demo.demo_construct 0 Demo.demo_registry);
    reflexivity.
Defined.

Example extractFlags_demo :
  dom (extractFlags Demo.demo_flag_values)
  =@{gset string} {[ "checkout-button"; "holdout" ]}.
Proof. by vm_compute. Qed.
